(** * TemplateTrigger: the Observer of [tt.py]

    A shallow embedding of [tt.py] (class [Observer]) and the properties
    of its match-to-event state machine, its listener registry and its
    polling life cycle.

    Conventions of the embedding.
    - Python floats and numpy scalars are exact rationals ([Q]); the
      code only divides, subtracts, clips and compares them.  Where the
      constructor rounds (the float32 mask and its float32 sum), numpy's
      floating point is a parameter ([FloatOps]) of
      [__init__template].
    - A screen location is the pair of integers [cv2.minMaxLoc] returns.
    - A listener is a handle compared by identity; calling it is
      recorded in the effect trace and returns normally.
    - The screen capture and the OpenCV matcher are collaborators: what
      they would answer on a tick is an input ([MatchOutcome]), and the
      calls made to them are recorded in the effect trace.
    - A method is a computation in the monad [Py]: it threads the
      mutable object, accumulates the effect trace and either returns a
      value or raises a Python exception. *)

From Stdlib Require Import ZArith QArith Qminmax Lia Lqa.
From stdpp Require Import base option list gmap.

Local Open Scope Z_scope.

(** ** Values *)

(** [(x, y)], as returned by [cv2.minMaxLoc]. *)
Definition Location : Type := Z * Z.

(** [bbox]: the search area handed to [sct.grab]. *)
Record BBox := { bb_left : Z; bb_top : Z; bb_width : Z; bb_height : Z }.

(** The identity of a registered function. *)
Definition Callback : Type := nat.

(** A numpy array with three axes: its [shape] and its items. *)
Record ndarray := { shape : nat * nat * nat; item : nat -> nat -> nat -> Q }.

Definition rows (a : ndarray) : nat := a.(shape).1.1.
Definition cols (a : ndarray) : nat := a.(shape).1.2.
Definition depth (a : ndarray) : nat := a.(shape).2.

(** What the collaborators answer on one tick: [val] and [location] of
    [val, _, location, _ = cv2.minMaxLoc(result)]. *)
Record MatchOutcome := { min_val : Q; min_loc : Location }.

(** ** Exceptions and effects *)

Inductive PyError :=
| InvalidDimension            (* Exception("Invalid dimension of template.") *)
| UnknownTrigger (t : Z)      (* Exception("Unknown trigger: {}".format(trigger)) *)
| AlreadyRunning              (* Exception("Observer is already running.") *)
| NotRunning                  (* Exception("Observer is not running.") *)
| ValueError                  (* list.remove(x): x not in list *)
| KeyError (t : Z)            (* a dict without the key *)
| IndexError.                 (* tuple index out of range *)

Inductive Result (A : Type) :=
| Ok (a : A)
| Raise (e : PyError).
Arguments Ok {A} a.
Arguments Raise {A} e.

Inductive Effect :=
| Grab (region : option BBox)          (* sct.grab(...) *)
| MatchTemplate                        (* cv2.matchTemplate, cv2.minMaxLoc *)
| Trigger (t : Z) (loc : Location)     (* self._trigger(t, loc) is entered *)
| Call (f : Callback) (loc : Location) (* fun(loc) *).

(** ** The monad of methods *)

Record Outcome (S A : Type) := mkOutcome {
  trace : list Effect;
  final : S;
  value : Result A
}.
Arguments mkOutcome {S A} trace final value.
Arguments trace {S A} o.
Arguments final {S A} o.
Arguments value {S A} o.

Definition Py (S A : Type) : Type := S -> Outcome S A.

Definition ret {S A} (a : A) : Py S A := fun s => mkOutcome [] s (Ok a).

Definition raise {S A} (e : PyError) : Py S A := fun s => mkOutcome [] s (Raise e).

Definition bind {S A B} (m : Py S A) (k : A -> Py S B) : Py S B :=
  fun s =>
    let r := m s in
    match value r with
    | Ok a =>
        let r' := k a (final r) in
        mkOutcome (trace r ++ trace r') (final r') (value r')
    | Raise e => mkOutcome (trace r) (final r) (Raise e)
    end.

Definition get {S} : Py S S := fun s => mkOutcome [] s (Ok s).

Definition modify {S} (f : S -> S) : Py S unit := fun s => mkOutcome [] (f s) (Ok tt).

Definition emit {S} (e : Effect) : Py S unit := fun s => mkOutcome [e] s (Ok tt).

Declare Scope py_scope.
Delimit Scope py_scope with py.
Notation "x <- m ;; k" := (bind m (fun x => k))
  (at level 100, m at next level, right associativity) : py_scope.
Notation "m ;;; k" := (bind m (fun _ => k))
  (at level 100, right associativity) : py_scope.
Local Open Scope py_scope.

(** [for x in xs: body(x)], stopping at the first exception. *)
Fixpoint for_each {S A} (xs : list A) (body : A -> Py S unit) : Py S unit :=
  match xs with
  | [] => ret tt
  | x :: xs' => body x ;;; for_each xs' body
  end.

(** ** The Observer *)

Definition MAX_DIFF : Q := 3 * 255 * 255.

Definition ON_FOUND : Z := 1.
Definition ON_LOST : Z := 2.
Definition ON_MOVE : Z := 3.
Definition TRIGGERS : list Z := [ON_FOUND; ON_LOST; ON_MOVE].

Record Observer := mkObserver {
  _template_image : ndarray;
  _template_mask : option ndarray;
  _sq_alpha : Q;
  _threshold : Q;
  _bbox : option BBox;
  _lastFound : option Location;
  _fun_register : gmap Z (list Callback);
  _current_thread : option (nat * nat)
}.

Definition set_lastFound (v : option Location) (o : Observer) : Observer :=
  mkObserver o.(_template_image) o.(_template_mask) o.(_sq_alpha) o.(_threshold)
    o.(_bbox) v o.(_fun_register) o.(_current_thread).

Definition set_fun_register (v : gmap Z (list Callback)) (o : Observer) : Observer :=
  mkObserver o.(_template_image) o.(_template_mask) o.(_sq_alpha) o.(_threshold)
    o.(_bbox) o.(_lastFound) v o.(_current_thread).

Definition set_current_thread (v : option (nat * nat)) (o : Observer) : Observer :=
  mkObserver o.(_template_image) o.(_template_mask) o.(_sq_alpha) o.(_threshold)
    o.(_bbox) o.(_lastFound) o.(_fun_register) v.

(** [np.clip(x, lo, hi)]: [np.minimum(hi, np.maximum(x, lo))]. *)
Definition np_clip (x lo hi : Q) : Q := Qmin hi (Qmax x lo).

(** [Observer.check]. *)
Definition check (m : MatchOutcome) : Py Observer (Location * Q) :=
  self <- get ;;
  if Qeq_bool self.(_sq_alpha) 0 then
    ret ((0, 0), 1%Q)
  else
    emit (Grab self.(_bbox)) ;;;
    emit MatchTemplate ;;;
    let val := m.(min_val) in
    let location := m.(min_loc) in
    let similarity := np_clip (1 - val / MAX_DIFF / self.(_sq_alpha))%Q 0 1 in
    ret (location, similarity).

(** [self._fun_register[trigger]]. *)
Definition getitem (trigger : Z) : Py Observer (list Callback) :=
  self <- get ;;
  match self.(_fun_register) !! trigger with
  | Some funs => ret funs
  | None => raise (KeyError trigger)
  end.

(** [Observer._trigger]. *)
Definition _trigger (trigger : Z) (loc : Location) : Py Observer unit :=
  emit (Trigger trigger loc) ;;;
  funs <- getitem trigger ;;
  for_each funs (fun f => emit (Call f loc)).

(** [Observer.update]. *)
Definition update (m : MatchOutcome) : Py Observer unit :=
  found <- check m ;;
  let '(location, sim) := found in
  self <- get ;;
  if Qle_bool self.(_threshold) sim then
    match self.(_lastFound) with
    | None => _trigger ON_FOUND location
    | Some last =>
        if decide (location <> last) then _trigger ON_MOVE location else ret tt
    end ;;;
    modify (set_lastFound (Some location))
  else
    match self.(_lastFound) with
    | Some last =>
        _trigger ON_LOST last ;;;
        modify (set_lastFound None)
    | None => ret tt
    end.

(** [for m in ms: self.update()], one answer of the collaborators per tick. *)
Definition ticks (ms : list MatchOutcome) : Py Observer unit :=
  for_each ms update.

(** [list.remove(x)]: the list without its first item equal to [x];
    [None] stands for the [ValueError] when there is none. *)
Fixpoint list_remove (x : Callback) (l : list Callback) : option (list Callback) :=
  match l with
  | [] => None
  | y :: l' => if decide (y = x) then Some l' else cons y <$> list_remove x l'
  end.

(** [Observer.register]. *)
Definition register (fn : Callback) (trigger : Z) : Py Observer unit :=
  if decide (trigger ∈ TRIGGERS) then
    funs <- getitem trigger ;;
    modify (fun o => set_fun_register (<[trigger := funs ++ [fn]]> o.(_fun_register)) o)
  else
    raise (UnknownTrigger trigger).

(** [Observer.unregister]. *)
Definition unregister (fn : Callback) (trigger : Z) : Py Observer unit :=
  if decide (trigger ∈ TRIGGERS) then
    funs <- getitem trigger ;;
    match list_remove fn funs with
    | Some funs' =>
        modify (fun o => set_fun_register (<[trigger := funs']> o.(_fun_register)) o)
    | None => raise ValueError
    end
  else
    raise (UnknownTrigger trigger).

(** *** Construction *)

(** Every item of an array, in C order. *)
Definition items (a : ndarray) : list Q :=
  i ← seq 0 (rows a); j ← seq 0 (cols a); k ← seq 0 (depth a); [item a i j k].

Definition np_sum (a : ndarray) : Q := foldr Qplus 0%Q (items a).

Definition np_map (f : Q -> Q) (a : ndarray) : ndarray :=
  {| shape := shape a; item := fun i j k => f (item a i j k) |}.

Definition np_square : ndarray -> ndarray := np_map (fun x => x * x)%Q.

(** [np.split(a, [-1], 2)]: all channels but the last, and the last. *)
Definition np_split_last (a : ndarray) : ndarray * ndarray :=
  let d := depth a in
  ({| shape := (rows a, cols a, (d - 1)%nat); item := item a |},
   {| shape := (rows a, cols a, 1%nat);
      item := fun i j k => item a i j (k + (d - 1))%nat |}).

(** [{trigger: [] for trigger in Observer.TRIGGERS}]. *)
Definition empty_register : gmap Z (list Callback) :=
  list_to_map ((fun trigger => (trigger, [])) <$> TRIGGERS).

(** [Observer.__init__] on an image with three axes, in exact
    arithmetic. *)
Definition __init__ (template : ndarray) (threshold : Q) (bbox : option BBox)
  : Result Observer :=
  let dim := depth template in
  if decide (dim = 4%nat) then
    let '(color, a) := np_split_last template in
    let mask := np_map (fun x => np_clip (x * (1 / 255)) 0 1)%Q a in
    Ok (mkObserver color (Some mask) (np_sum (np_square mask)) threshold bbox
          None empty_register None)
  else if decide (dim = 3%nat) then
    Ok (mkObserver template None (inject_Z (Z.of_nat (rows template * cols template)))
          threshold bbox None empty_register None)
  else
    Raise InvalidDimension.

(** *** Construction from any array, in floating point *)

(** A numpy array of any number of axes: its [shape] tuple and its
    items, by index.  The items are finite numbers, as the pixels of an
    image are. *)
Record array := { a_shape : list nat; a_item : list nat -> Q }.

(** The indices of an array of a shape, in C order. *)
Fixpoint indices (sh : list nat) : list (list nat) :=
  match sh with
  | [] => [[]]
  | n :: sh' => i ← seq 0 n; idx ← indices sh'; [i :: idx]
  end.

Definition a_items (a : array) : list Q := a_item a <$> indices (a_shape a).

Definition a_map (f : Q -> Q) (a : array) : array :=
  {| a_shape := a_shape a; a_item := fun idx => f (a_item a idx) |}.

(** [np.split(a, [-1], 2)] of an array with [n] items along axis 2:
    the items before the last one along that axis, and the last one. *)
Definition a_split_last (a : array) (n : nat) : array * array :=
  ({| a_shape := <[2%nat := (n - 1)%nat]> (a_shape a); a_item := a_item a |},
   {| a_shape := <[2%nat := 1%nat]> (a_shape a);
      a_item := fun idx => a_item a (alter (fun k => k + (n - 1))%nat 2%nat idx) |}).

(** The floating point operations of numpy that [__init__] applies; a
    float is the rational it stands for. *)
Record FloatOps := {
  f_scale255 : Q -> Q;    (* x * (1. / 255), an item of a * (1. / 255) *)
  f_float32 : Q -> Q;     (* np.float32(x) *)
  f_square : Q -> Q;      (* np.square(x) of a float32 *)
  f_sum : list Q -> Q     (* np.sum of a float32 array, from its items *)
}.

(** The same operations without rounding. *)
Definition exact : FloatOps :=
  {| f_scale255 := fun x => (x * (1 / 255))%Q;
     f_float32 := fun x => x;
     f_square := fun x => (x * x)%Q;
     f_sum := foldr Qplus 0%Q |}.

(** [Observer.__init__], lines 24 to 35: what the constructor stores as
    [_template_image], [_template_mask] and [_sq_alpha] for the array it
    is given, or the exception it raises.  The lines after these store
    the other arguments and raise nothing. *)
Definition __init__template (ops : FloatOps) (template : array)
  : Result (array * option array * Q) :=
  match a_shape template !! 2%nat with
  | None => Raise IndexError
  | Some dim =>
      if decide (dim = 4%nat) then
        let '(color, a) := a_split_last template dim in
        let mask := a_map (fun x => f_float32 ops (np_clip (f_scale255 ops x) 0 1)) a in
        Ok (color, Some mask, f_sum ops (a_items (a_map (f_square ops) mask)))
      else if decide (dim = 3%nat) then
        Ok (template, None,
            inject_Z (Z.of_nat (foldr Nat.mul 1%nat (take 2 (a_shape template)))))
      else
        Raise InvalidDimension
  end.

(** An array of three axes as an array of any number of axes. *)
Definition of_ndarray (a : ndarray) : array :=
  {| a_shape := [rows a; cols a; depth a];
     a_item := fun idx =>
       match idx with
       | [i; j; k] => item a i j k
       | _ => 0%Q
       end |}.

(** An array of any number of axes that is a given array of three. *)
Definition same_array (x : array) (y : ndarray) : Prop :=
  a_shape x = [rows y; cols y; depth y]
  ∧ ∀ i j k, a_item x [i; j; k] = item y i j k.

(** ** Reading effect traces *)

(** The events a trace fires: its entries into [_trigger]. *)
Definition fired (tr : list Effect) : list (Z * Location) :=
  omap (fun e => match e with Trigger t loc => Some (t, loc) | _ => None end) tr.

(** What [_trigger(trigger, loc)] does on a registry: the listeners of
    the kind are called in the order of their sequence. *)
Definition dispatch (reg : gmap Z (list Callback)) (trigger : Z) (loc : Location)
  : list Effect :=
  Trigger trigger loc :: ((fun f => Call f loc) <$> default [] (reg !! trigger)).

(** The registry has a sequence for each of the three kinds; [__init__]
    establishes this and no method breaks it. *)
Definition wf_register (reg : gmap Z (list Callback)) : Prop :=
  ∀ t, t ∈ TRIGGERS → is_Some (reg !! t).

(** ** Threads

    [run] and [stop] work on the Observer together with the threads and
    events of the [threading] module.  A thread or an event is known by
    its index in the list of all those created so far. *)

(** Where the worker [async_run] stands. *)
Inductive WorkerPc :=
| Created   (* threading.Thread(target=async_run), not started yet *)
| Waiting   (* inside stop_event.wait(update_period) *)
| Ticking   (* wait returned False: self.update() comes next *)
| Exited.   (* wait returned True: the loop is left, the thread is over *)

Global Instance WorkerPc_eq_dec : EqDecision WorkerPc.
Proof. solve_decision. Defined.

Record Thread := mkThread {
  t_stop_event : nat;   (* the event async_run closes over *)
  t_period : Q;         (* the update_period async_run closes over *)
  t_pc : WorkerPc
}.

Record Process := mkProcess {
  observer : Observer;
  threads : list Thread;
  events : list bool    (* the internal flag of each threading.Event *)
}.

Definition set_observer (o : Observer) (s : Process) : Process :=
  mkProcess o s.(threads) s.(events).

Definition set_pc (t : nat) (pc : WorkerPc) (s : Process) : Process :=
  mkProcess s.(observer)
    (alter (fun th => mkThread th.(t_stop_event) th.(t_period) pc) t s.(threads))
    s.(events).

(** A method of the Observer, run on the Observer of the process. *)
Definition on_observer {A} (m : Py Observer A) : Py Process A :=
  fun s =>
    let r := m s.(observer) in
    mkOutcome (trace r) (set_observer (final r) s) (value r).

(** [threading.Event()]. *)
Definition Event_new : Py Process nat :=
  fun s =>
    mkOutcome [] (mkProcess s.(observer) s.(threads) (s.(events) ++ [false]))
      (Ok (length s.(events))).

(** [stop_event.set()]. *)
Definition Event_set (e : nat) : Py Process unit :=
  modify (fun s => mkProcess s.(observer) s.(threads) (<[e := true]> s.(events))).

(** [threading.Thread(target=async_run)], [async_run] closing over
    [stop_event] and [update_period]. *)
Definition Thread_new (stop_event : nat) (update_period : Q) : Py Process nat :=
  fun s =>
    mkOutcome []
      (mkProcess s.(observer)
         (s.(threads) ++ [mkThread stop_event update_period Created]) s.(events))
      (Ok (length s.(threads))).

(** [thread.start()]: the worker enters its loop, that is its first wait. *)
Definition Thread_start (t : nat) : Py Process unit := modify (set_pc t Waiting).

(** [Observer.run]. *)
Definition run (update_period : Q) : Py Process unit :=
  s <- get ;;
  match s.(observer).(_current_thread) with
  | Some _ => raise AlreadyRunning
  | None =>
      stop_event <- Event_new ;;
      thread <- Thread_new stop_event update_period ;;
      on_observer (modify (set_current_thread (Some (thread, stop_event)))) ;;;
      Thread_start thread
  end.

(** A method of the caller that may block in [thread.join()]: either it
    has returned or raised, or it waits for [thread] to be over, in
    state [blocked], and then goes on with [resume]. *)
Inductive Blocking (A : Type) :=
| Returned (r : Outcome Process A)
| Joining (thread : nat) (blocked : Process) (resume : Py Process A).
Arguments Returned {A} r.
Arguments Joining {A} thread blocked resume.

(** [Observer.stop]. *)
Definition stop : Process -> Blocking unit :=
  fun s =>
    match s.(observer).(_current_thread) with
    | None => Returned (raise NotRunning s)
    | Some (thread, stop_event) =>
        Joining thread (final (Event_set stop_event s))
          (on_observer (modify (set_current_thread None)))
    end.

(** [async_run], the condition of its loop: [stop_event.wait(update_period)]
    of worker [t] returns [signalled], [True] when the flag is set and
    [False] (a timeout) when it is not. *)
Definition async_run_wait (signalled : bool) (t : nat) (s : Process) : option Process :=
  th ← s.(threads) !! t;
  flag ← s.(events) !! th.(t_stop_event);
  if decide (th.(t_pc) = Waiting) then
    if decide (flag = signalled) then
      Some (set_pc t (if signalled then Exited else Ticking) s)
    else None
  else None.

(** [async_run], the body of its loop for worker [t]: [self.update()],
    then the next wait; an exception ends the thread. *)
Definition async_run_update (t : nat) (m : MatchOutcome) (s : Process) : option Process :=
  th ← s.(threads) !! t;
  if decide (th.(t_pc) = Ticking) then
    let r := on_observer (update m) s in
    Some (set_pc t (match value r with Ok _ => Waiting | Raise _ => Exited end) (final r))
  else None.

(** The caller of the Observer is between two calls, or blocked in the
    [thread.join()] of a method that goes on with [resume]. *)
Inductive CallerPc :=
| Idle
| InJoin (thread : nat) (resume : Py Process unit).

Record Machine := mkMachine { proc : Process; caller : CallerPc }.

(** What can happen next: the caller calls a method or gets out of
    [join], or a worker moves. *)
Inductive Action :=
| call_run (update_period : Q)
| call_stop
| join_returns
| call_register (fn : Callback) (trigger : Z)
| call_unregister (fn : Callback) (trigger : Z)
| call_update (m : MatchOutcome)
| wait_timeout (t : nat)
| wait_signalled (t : nat)
| loop_update (t : nat) (m : MatchOutcome).

Definition is_worker_action (a : Action) : bool :=
  match a with
  | wait_timeout _ | wait_signalled _ | loop_update _ _ => true
  | _ => false
  end.

Definition is_call_run (a : Action) : bool :=
  match a with call_run _ => true | _ => false end.

(** One step; [None] when the action cannot happen in this state.  A
    call that raises leaves the caller with the exception, between two
    calls. *)
Definition exec (a : Action) (s : Machine) : option Machine :=
  match a, s.(caller) with
  | call_run p, Idle => Some (mkMachine (final (run p s.(proc))) Idle)
  | call_stop, Idle =>
      match stop s.(proc) with
      | Returned r => Some (mkMachine (final r) Idle)
      | Joining thread blocked resume => Some (mkMachine blocked (InJoin thread resume))
      end
  | join_returns, InJoin thread resume =>
      th ← s.(proc).(threads) !! thread;
      if decide (th.(t_pc) = Exited) then
        Some (mkMachine (final (resume s.(proc))) Idle)
      else None
  | call_register fn trigger, Idle =>
      Some (mkMachine (final (on_observer (register fn trigger) s.(proc))) Idle)
  | call_unregister fn trigger, Idle =>
      Some (mkMachine (final (on_observer (unregister fn trigger) s.(proc))) Idle)
  | call_update m, Idle =>
      Some (mkMachine (final (on_observer (update m) s.(proc))) Idle)
  | wait_timeout t, c => (fun p => mkMachine p c) <$> async_run_wait false t s.(proc)
  | wait_signalled t, c => (fun p => mkMachine p c) <$> async_run_wait true t s.(proc)
  | loop_update t m, c => (fun p => mkMachine p c) <$> async_run_update t m s.(proc)
  | _, _ => None
  end.

Fixpoint execs (acts : list Action) (s : Machine) : option Machine :=
  match acts with
  | [] => Some s
  | a :: acts' => s' ← exec a s; execs acts' s'
  end.

(** The process right after [obs = Observer(...)]. *)
Definition boot (o : Observer) : Machine :=
  mkMachine (mkProcess o [] []) Idle.

(** A worker that has not left its loop. *)
Definition live (s : Process) (t : nat) : Prop :=
  ∃ th, s.(threads) !! t = Some th ∧ th.(t_pc) ≠ Exited.

(** The listener calls in a trace. *)
Definition calls (tr : list Effect) : list (Callback * Location) :=
  omap (fun e => match e with Call f loc => Some (f, loc) | _ => None end) tr.

(** A tick that ran to its end on [o] with outcome [r]: it fired [ev]
    (nothing, or one event of some kind at some location), called
    exactly the listeners of that kind, in their order, with that
    location, and left the Observer as it was but for the last found
    location, now [next]. *)
Definition tick_outcome (o : Observer) (r : Outcome Observer unit)
    (ev : option (Z * Location)) (next : option Location) : Prop :=
  value r = Ok tt
  ∧ fired (trace r) = option_list ev
  ∧ calls (trace r) =
      match ev with
      | Some (kind, loc) =>
          (fun f => (f, loc)) <$> default [] (o.(_fun_register) !! kind)
      | None => []
      end
  ∧ final r = set_lastFound next o.

(** What holds of the process in every state the machine reaches from
    [boot]. *)
Record invariant (s : Machine) : Prop := {
  (* a worker still in its loop is the one of the run handle *)
  inv_live : ∀ t th,
    s.(proc).(threads) !! t = Some th → th.(t_pc) ≠ Exited →
    s.(proc).(observer).(_current_thread) = Some (t, th.(t_stop_event));
  (* the run handle holds a thread and the event its worker waits on *)
  inv_handle : ∀ t e,
    s.(proc).(observer).(_current_thread) = Some (t, e) →
    ∃ th, s.(proc).(threads) !! t = Some th ∧ th.(t_stop_event) = e
          ∧ is_Some (s.(proc).(events) !! e);
  (* between two calls, a run handle means a worker in its loop that
     was not told to stop *)
  inv_idle : ∀ t e,
    s.(caller) = Idle →
    s.(proc).(observer).(_current_thread) = Some (t, e) →
    live s.(proc) t ∧ s.(proc).(events) !! e = Some false;
  (* a caller inside join is in stop: it has set the event of the run
     handle, and clears the run handle next *)
  inv_join : ∀ t resume,
    s.(caller) = InJoin t resume →
    resume = on_observer (modify (set_current_thread None))
    ∧ ∃ e, s.(proc).(observer).(_current_thread) = Some (t, e)
           ∧ s.(proc).(events) !! e = Some true;
  (* every thread was started *)
  inv_started : ∀ t th,
    s.(proc).(threads) !! t = Some th → th.(t_pc) ≠ Created;
  inv_register : wf_register s.(proc).(observer).(_fun_register)
}.

(** ** Sample inputs *)

(** A 2 x 2 template with four channels: colour 7 everywhere, and the
    same [alpha] in every pixel. *)
Definition sample_rgba (alpha : Q) : ndarray :=
  {| shape := (2%nat, 2%nat, 4%nat);
     item := fun _ _ k => if decide (k = 3%nat) then alpha else 7%Q |}.

(** A 2 x 3 template with three channels. *)
Definition sample_rgb : ndarray :=
  {| shape := (2%nat, 3%nat, 3%nat); item := fun _ _ _ => 7%Q |}.

(** A template with [channels] channels. *)
Definition sample_channels (channels : nat) : ndarray :=
  {| shape := (2%nat, 2%nat, channels); item := fun _ _ _ => 7%Q |}.


(** An array of four axes: two frames of two rows, two columns and four
    channels, every item [alpha]. *)
Definition sample_frames (alpha : Q) : array :=
  {| a_shape := [2%nat; 2%nat; 4%nat; 2%nat]; a_item := fun _ => alpha |}.

(** A match of raw distance 5 at (3, 4). *)
Definition sample_match : MatchOutcome := {| min_val := 5; min_loc := (3, 4) |}.

(** An Observer as [__init__] leaves it, with two listeners for FOUND
    registered since. *)
Definition sample_observer (sq_alpha threshold : Q) (last : option Location)
  : Observer :=
  mkObserver sample_rgb None sq_alpha threshold None last
    (<[ON_FOUND := [1%nat; 2%nat]]> empty_register) None.

(** The machine after [acts] from [s] (or [s] itself, were one of them
    impossible). *)
Definition after (acts : list Action) (s : Machine) : Machine :=
  default s (execs acts s).

(** A booted sample Observer. *)
Definition sample_machine : Machine := boot (sample_observer 6 (1 # 2) None).

(** A list of at most one fired event does not hold both a FOUND and a
    MOVED. *)
Ltac no_found_with_moved :=
  let H1 := fresh in
  let H2 := fresh in
  intros (? & ? & H1 & H2);
  first
    [ apply elem_of_nil in H1; exact H1
    | apply list_elem_of_singleton in H1; apply list_elem_of_singleton in H2;
      unfold ON_FOUND, ON_MOVE, ON_LOST in *; congruence ].

(** ** Repeated calls *)

(** [for fn in fns: self.register(fn, trigger)]. *)
Definition registers (fns : list Callback) (trigger : Z) : Py Observer unit :=
  for_each fns (fun fn => register fn trigger).

(** [self.unregister(fn, trigger)], [n] times. *)
Definition unregisters (n : nat) (fn : Callback) (trigger : Z) : Py Observer unit :=
  for_each (replicate n fn) (fun fn => unregister fn trigger).

(** What a listener of the three kinds makes of the events it is
    called with: FOUND is expected while it holds no location, MOVED
    (to another location) and LOST (of the location it holds) while it
    holds one.  [None] when an event comes that it does not expect. *)
Fixpoint replay (held : option Location) (evs : list (Z * Location))
  : option (option Location) :=
  match evs with
  | [] => Some held
  | (kind, loc) :: evs' =>
      match held with
      | None => if decide (kind = ON_FOUND) then replay (Some loc) evs' else None
      | Some last =>
          if decide (kind = ON_MOVE ∧ loc ≠ last) then replay (Some loc) evs'
          else if decide (kind = ON_LOST ∧ loc = last) then replay None evs'
          else None
      end
  end.

(** The steps of worker [t] through its loop, once for each answer of
    the collaborators: the wait times out, then [self.update()]. *)
Definition rounds (t : nat) (ms : list MatchOutcome) : list Action :=
  ms ≫= fun m => [wait_timeout t; loop_update t m].

(** The process of a running Observer [self] whose worker, the last
    thread made, stands at [pc]. *)
Definition running (self : Observer) (ths : list Thread) (evs : list bool)
    (period : Q) (flag : bool) (pc : WorkerPc) : Process :=
  mkProcess self (ths ++ [mkThread (length evs) period pc]) (evs ++ [flag]).

(** The regions of the screen grabbed in a trace ([None] for the whole
    monitor), and the number of template matches in it. *)
Definition captures (tr : list Effect) : list (option BBox) :=
  omap (fun e => match e with Grab region => Some region | _ => None end) tr.

Definition matches (tr : list Effect) : nat :=
  length (List.filter (fun e => match e with MatchTemplate => true | _ => false end) tr).

(** * Properties *)

(** ** The monad and the trace readers *)

Lemma for_each_emit {S} (fs : list Callback) (loc : Location) (s : S) :
  for_each fs (fun f => emit (Call f loc)) s
  = mkOutcome ((fun f => Call f loc) <$> fs) s (Ok tt).
Proof.
  induction fs as [|f fs IH]; [reflexivity|].
  cbn [for_each]. unfold bind at 1. cbn. rewrite IH. reflexivity.
Qed.

Lemma bind_ok {S A B} (m : Py S A) (k : A -> Py S B) s tr s' a :
  m s = mkOutcome tr s' (Ok a) →
  bind m k s
  = mkOutcome (tr ++ trace (k a s')) (final (k a s')) (value (k a s')).
Proof. intros H. unfold bind. rewrite H. reflexivity. Qed.

Lemma fired_app tr1 tr2 : fired (tr1 ++ tr2) = fired tr1 ++ fired tr2.
Proof. apply omap_app. Qed.

Lemma calls_app tr1 tr2 : calls (tr1 ++ tr2) = calls tr1 ++ calls tr2.
Proof. apply omap_app. Qed.

Lemma fired_Call fs loc : fired ((fun f => Call f loc) <$> fs) = [].
Proof. induction fs; [reflexivity | assumption]. Qed.

Lemma calls_Call fs loc :
  calls ((fun f => Call f loc) <$> fs) = (fun f => (f, loc)) <$> fs.
Proof. induction fs as [|f fs IH]; [reflexivity | cbn; f_equal; exact IH]. Qed.

Lemma fired_dispatch reg t loc : fired (dispatch reg t loc) = [(t, loc)].
Proof. unfold dispatch. cbn. f_equal. apply fired_Call. Qed.

Lemma calls_dispatch reg t loc :
  calls (dispatch reg t loc) = (fun f => (f, loc)) <$> default [] (reg !! t).
Proof. unfold dispatch. cbn. apply calls_Call. Qed.

(** ** [check] *)

Lemma check_degenerate o m :
  Qeq_bool o.(_sq_alpha) 0 = true →
  check m o = mkOutcome [] o (Ok ((0, 0), 1%Q)).
Proof. intros H. unfold check, bind, get. cbn. rewrite H. reflexivity. Qed.

Lemma check_regular o m :
  Qeq_bool o.(_sq_alpha) 0 = false →
  check m o
  = mkOutcome [Grab o.(_bbox); MatchTemplate] o
      (Ok (m.(min_loc),
           np_clip (1 - m.(min_val) / MAX_DIFF / o.(_sq_alpha))%Q 0 1)).
Proof. intros H. unfold check, bind, get. cbn. rewrite H. reflexivity. Qed.

(** [check] returns, changes nothing and fires nothing. *)
Lemma check_returns o m :
  ∃ tr loc sim,
    check m o = mkOutcome tr o (Ok (loc, sim)) ∧ fired tr = [] ∧ calls tr = [].
Proof.
  destruct (Qeq_bool o.(_sq_alpha) 0) eqn:H.
  - eexists _, _, _. split; [apply check_degenerate, H | split; reflexivity].
  - eexists _, _, _. split; [apply check_regular, H | split; reflexivity].
Qed.


Lemma np_clip_bounds x : (0 <= np_clip x 0 1 <= 1)%Q.
Proof.
  unfold np_clip. split.
  - apply Q.min_glb; [discriminate | apply Q.le_max_r].
  - apply Q.le_min_l.
Qed.

(** ** [_trigger] and [update] *)

Lemma trigger_dispatch o t loc :
  is_Some (o.(_fun_register) !! t) →
  _trigger t loc o = mkOutcome (dispatch o.(_fun_register) t loc) o (Ok tt).
Proof.
  intros [fs Hfs]. unfold _trigger, getitem, dispatch, bind, emit, get.
  cbn [value final trace]. rewrite Hfs. cbn [value final trace ret default].
  change (fun (f : Callback) (s : Observer) => mkOutcome [Call f loc] s (Ok ()))
    with (fun f : Callback => emit (S:=Observer) (Call f loc)).
  rewrite for_each_emit. reflexivity.
Qed.

Lemma FOUND_in_TRIGGERS : ON_FOUND ∈ TRIGGERS.
Proof. unfold TRIGGERS. set_solver. Qed.

Lemma LOST_in_TRIGGERS : ON_LOST ∈ TRIGGERS.
Proof. unfold TRIGGERS. set_solver. Qed.

Lemma MOVE_in_TRIGGERS : ON_MOVE ∈ TRIGGERS.
Proof. unfold TRIGGERS. set_solver. Qed.

Lemma wf_FOUND reg : wf_register reg → is_Some (reg !! ON_FOUND).
Proof. intros H. apply H, FOUND_in_TRIGGERS. Qed.

Lemma wf_LOST reg : wf_register reg → is_Some (reg !! ON_LOST).
Proof. intros H. apply H, LOST_in_TRIGGERS. Qed.

Lemma wf_MOVE reg : wf_register reg → is_Some (reg !! ON_MOVE).
Proof. intros H. apply H, MOVE_in_TRIGGERS. Qed.

Lemma set_lastFound_same o : set_lastFound o.(_lastFound) o = o.
Proof. destruct o; reflexivity. Qed.

(** [update], computed: the trace of [check], then at most one dispatch. *)
Lemma update_eq o m tr location sim :
  wf_register o.(_fun_register) →
  check m o = mkOutcome tr o (Ok (location, sim)) →
  update m o =
    let reg := o.(_fun_register) in
    if Qle_bool o.(_threshold) sim then
      match o.(_lastFound) with
      | None =>
          mkOutcome (tr ++ dispatch reg ON_FOUND location)
            (set_lastFound (Some location) o) (Ok tt)
      | Some last =>
          if decide (location ≠ last) then
            mkOutcome (tr ++ dispatch reg ON_MOVE location)
              (set_lastFound (Some location) o) (Ok tt)
          else mkOutcome tr (set_lastFound (Some location) o) (Ok tt)
      end
    else
      match o.(_lastFound) with
      | Some last =>
          mkOutcome (tr ++ dispatch reg ON_LOST last) (set_lastFound None o) (Ok tt)
      | None => mkOutcome tr o (Ok tt)
      end.
Proof.
  intros Hwf Hc. unfold update.
  rewrite (bind_ok _ _ _ _ _ _ Hc).
  rewrite (bind_ok get _ o [] o o eq_refl). cbv beta iota zeta.
  destruct (Qle_bool (_threshold o) sim).
  - destruct (_lastFound o) as [last|].
    + destruct (decide (location ≠ last)).
      * rewrite (bind_ok _ _ _ _ _ _ (trigger_dispatch o _ _ (wf_MOVE _ Hwf))).
        cbn. rewrite app_nil_r. reflexivity.
      * cbn. rewrite app_nil_r. reflexivity.
    + rewrite (bind_ok _ _ _ _ _ _ (trigger_dispatch o _ _ (wf_FOUND _ Hwf))).
      cbn. rewrite app_nil_r. reflexivity.
  - destruct (_lastFound o) as [last|].
    + rewrite (bind_ok _ _ _ _ _ _ (trigger_dispatch o _ _ (wf_LOST _ Hwf))).
      cbn. rewrite app_nil_r. reflexivity.
    + cbn. rewrite app_nil_r. reflexivity.
Qed.

Lemma Qle_bool_false x y : Qle_bool x y = false ↔ (y < x)%Q.
Proof.
  split; intros H.
  - apply Qnot_le_lt. intros Hle. apply Qle_bool_iff in Hle. congruence.
  - destruct (Qle_bool x y) eqn:E; [|reflexivity].
    apply Qle_bool_iff in E. exfalso. exact (Qlt_not_le _ _ H E).
Qed.

(** C1. One tick, from the last found state and this tick's
    [(location, sim)] (what [check] answers), fires and moves as the
    transition table says:
    - absent, [sim >= threshold]: FOUND(location), then present at [location];
    - present at [last], [sim >= threshold], same location: nothing, unchanged;
    - present at [last], [sim >= threshold], other location: MOVED(location),
      then present at [location];
    - present at [last], [sim < threshold]: LOST(last), then absent;
    - absent, [sim < threshold]: nothing, still absent;
    and a tick fires at most one event, never FOUND together with MOVED. *)
Theorem update_follows_transition_table o m location sim :
  wf_register o.(_fun_register) →
  value (check m o) = Ok (location, sim) →
  let r := update m o in
  let threshold := o.(_threshold) in
  (o.(_lastFound) = None → (threshold <= sim)%Q →
     tick_outcome o r (Some (ON_FOUND, location)) (Some location))
  ∧ (∀ last, o.(_lastFound) = Some last → (threshold <= sim)%Q → location = last →
       tick_outcome o r None (Some last) ∧ final r = o)
  ∧ (∀ last, o.(_lastFound) = Some last → (threshold <= sim)%Q → location ≠ last →
       tick_outcome o r (Some (ON_MOVE, location)) (Some location))
  ∧ (∀ last, o.(_lastFound) = Some last → (sim < threshold)%Q →
       tick_outcome o r (Some (ON_LOST, last)) None)
  ∧ (o.(_lastFound) = None → (sim < threshold)%Q →
       tick_outcome o r None None ∧ final r = o)
  ∧ (length (fired (trace r)) ≤ 1)%nat
  ∧ ¬ (∃ loc1 loc2, (ON_FOUND, loc1) ∈ fired (trace r)
                    ∧ (ON_MOVE, loc2) ∈ fired (trace r)).
Proof.
  intros Hwf Hc r threshold. subst r threshold.
  destruct (check_returns o m) as (tr & loc' & sim' & Heq & Hf & Hcl).
  rewrite Heq in Hc. cbn in Hc. injection Hc as -> ->.
  rewrite (update_eq o m tr location sim Hwf Heq). cbn zeta.
  unfold tick_outcome.
  destruct (Qle_bool (_threshold o) sim) eqn:Hthr.
  - assert (Hnlt : ¬ (sim < _threshold o)%Q).
    { intros Hlt. apply Qle_bool_false in Hlt. congruence. }
    destruct (_lastFound o) as [last|] eqn:Hlast.
    + destruct (decide (location ≠ last)) as [Hne|Heq'].
      * cbn [trace final value]. rewrite fired_app, calls_app, Hf, Hcl,
          fired_dispatch, calls_dispatch. cbn [app option_list length].
        repeat split; intros; simplify_eq; repeat split; try done.
        no_found_with_moved.
      * apply dec_stable in Heq'. subst last.
        cbn [trace final value]. rewrite Hf, Hcl. cbn [option_list length].
        assert (set_lastFound (Some location) o = o) as ->.
        { rewrite <- Hlast. apply set_lastFound_same. }
        repeat split; intros; simplify_eq; repeat split; try done; try lia.
        -- rewrite <- Hlast. symmetry. apply set_lastFound_same.
        -- no_found_with_moved.
    + cbn [trace final value]. rewrite fired_app, calls_app, Hf, Hcl,
        fired_dispatch, calls_dispatch. cbn [app option_list length].
      repeat split; intros; simplify_eq; repeat split; try done.
      no_found_with_moved.
  - assert (Hnle : ¬ (_threshold o <= sim)%Q).
    { intros Hle. apply Qle_bool_iff in Hle. congruence. }
    destruct (_lastFound o) as [last|] eqn:Hlast.
    + cbn [trace final value]. rewrite fired_app, calls_app, Hf, Hcl,
        fired_dispatch, calls_dispatch. cbn [app option_list length].
      repeat split; intros; simplify_eq; repeat split; try done.
      no_found_with_moved.
    + cbn [trace final value]. rewrite Hf, Hcl. cbn [option_list length].
      repeat split; intros; simplify_eq; repeat split; try done; try lia.
      * rewrite <- Hlast. symmetry. apply set_lastFound_same.
      * no_found_with_moved.
Qed.

Lemma wf_sample sq_alpha threshold last :
  wf_register (sample_observer sq_alpha threshold last).(_fun_register).
Proof.
  intros t Ht. unfold TRIGGERS in Ht.
  repeat (apply elem_of_cons in Ht as [->|Ht]); [| | |by apply elem_of_nil in Ht];
    vm_compute; eauto.
Qed.

Lemma update_transition_witness :
  tick_outcome (sample_observer 6 (1 # 2) None)
    (update sample_match (sample_observer 6 (1 # 2) None))
    (Some (ON_FOUND, (3, 4))) (Some (3, 4)).
Proof.
  refine (proj1 (update_follows_transition_table
                   (sample_observer 6 (1 # 2) None) sample_match (3, 4)
                   (np_clip (1 - 5 / MAX_DIFF / 6)%Q 0 1) _ _) _ _).
  - apply wf_sample.
  - reflexivity.
  - reflexivity.
  - vm_compute. discriminate.
Defined.

(** C2. Whatever raw distance the matcher answers (negative, or beyond
    [MAX_DIFF * sq_alpha], or in between), [check] returns a similarity
    between 0 and 1: 1 when the distance is not positive, 0 when it is
    [MAX_DIFF * sq_alpha] or more, and [1 - distance / (MAX_DIFF *
    sq_alpha)] in between. *)
Theorem check_similarity_in_unit_interval o m :
  ∃ tr location sim,
    check m o = mkOutcome tr o (Ok (location, sim))
    ∧ (0 <= sim <= 1)%Q
    ∧ ((0 < o.(_sq_alpha))%Q → (m.(min_val) <= 0)%Q → (sim == 1)%Q)
    ∧ ((0 < o.(_sq_alpha))%Q → (MAX_DIFF * o.(_sq_alpha) <= m.(min_val))%Q →
       (sim == 0)%Q)
    ∧ ((0 < o.(_sq_alpha))%Q →
       (0 <= m.(min_val) <= MAX_DIFF * o.(_sq_alpha))%Q →
       (sim == 1 - m.(min_val) / (MAX_DIFF * o.(_sq_alpha)))%Q).
Proof.
  assert (HM : (0 < MAX_DIFF)%Q) by reflexivity.
  destruct (Qeq_bool o.(_sq_alpha) 0) eqn:Hz.
  - exists [], (0, 0), 1%Q. split; [apply check_degenerate, Hz|].
    apply Qeq_bool_iff in Hz.
    split; [split; discriminate|].
    repeat split; intros Hpos; rewrite Hz in Hpos; discriminate Hpos.
  - eexists _, _, _. split; [apply check_regular, Hz|].
    split; [apply np_clip_bounds|].
    set (d := (m.(min_val) / MAX_DIFF / o.(_sq_alpha))%Q).
    unfold np_clip. repeat split.
    + intros Hpos Hval.
      assert (Hd : (d <= 0)%Q).
      { unfold d. apply Qle_shift_div_r; [exact Hpos|].
        apply Qle_shift_div_r; [exact HM|]. lra. }
      rewrite Q.max_l by lra. rewrite Q.min_l by lra. reflexivity.
    + intros Hpos Hval.
      assert (Hd : (1 <= d)%Q).
      { unfold d. apply Qle_shift_div_l; [exact Hpos|].
        apply Qle_shift_div_l; [exact HM|]. lra. }
      rewrite Q.max_r by lra. rewrite Q.min_r by lra. reflexivity.
    + intros Hpos [Hlo Hhi].
      assert (Hd0 : (0 <= d)%Q).
      { unfold d. apply Qle_shift_div_l; [exact Hpos|].
        apply Qle_shift_div_l; [exact HM|]. lra. }
      assert (Hd1 : (d <= 1)%Q).
      { unfold d. apply Qle_shift_div_r; [exact Hpos|].
        apply Qle_shift_div_r; [exact HM|]. lra. }
      rewrite Q.max_l by lra. rewrite Q.min_r by lra.
      unfold d. field. split; [lra | discriminate].
Qed.

(** ** Sequences of ticks *)

Lemma ticks_cons m ms o :
  ticks (m :: ms) o = bind (update m) (fun _ => ticks ms) o.
Proof. reflexivity. Qed.

(** While each tick finds the template where it was last found, ticks
    only consult the collaborators: the trace is that of the checks, and
    the Observer does not change. *)
Lemma ticks_present ms o loc :
  wf_register o.(_fun_register) →
  o.(_lastFound) = Some loc →
  Forall (fun m => ∃ sim, value (check m o) = Ok (loc, sim)
                          ∧ (o.(_threshold) <= sim)%Q) ms →
  ticks ms o
  = mkOutcome (concat ((fun m => trace (check m o)) <$> ms)) o (Ok tt).
Proof.
  intros Hwf Hlast Hall. induction Hall as [|m ms (sim & Hv & Hthr) _ IH].
  - reflexivity.
  - destruct (check_returns o m) as (tr & loc' & sim' & Heq & _ & _).
    rewrite Heq in Hv. cbn in Hv. injection Hv as -> ->.
    assert (Hup : update m o = mkOutcome tr o (Ok tt)).
    { rewrite (update_eq o m tr loc sim Hwf Heq). cbn zeta.
      apply Qle_bool_iff in Hthr. rewrite Hthr, Hlast.
      destruct (decide (loc ≠ loc)) as [Hne|_]; [done|].
      rewrite <- Hlast. rewrite set_lastFound_same. reflexivity. }
    rewrite ticks_cons, (bind_ok _ _ _ _ _ _ Hup), IH.
    cbn [fmap list_fmap concat trace final value]. rewrite Heq. reflexivity.
Qed.




(** ** The degenerate template *)

Lemma concat_checks_degenerate ms o :
  Qeq_bool o.(_sq_alpha) 0 = true →
  concat ((fun m => trace (check m o)) <$> ms) = [].
Proof.
  intros Hz. induction ms as [|m ms IH]; [reflexivity|].
  cbn [fmap list_fmap concat]. rewrite IH, check_degenerate by exact Hz.
  reflexivity.
Qed.

(** With a threshold above the similarity 1 of the degenerate template,
    no tick ever finds it. *)
Lemma ticks_degenerate_above_one ms o :
  Qeq_bool o.(_sq_alpha) 0 = true →
  (1 < o.(_threshold))%Q →
  o.(_lastFound) = None →
  ticks ms o = mkOutcome [] o (Ok tt).
Proof.
  intros Hz Hthr Hlast. induction ms as [|m ms IH]; [reflexivity|].
  assert (Hup : update m o = mkOutcome [] o (Ok tt)).
  { unfold update. rewrite (bind_ok _ _ _ _ _ _ (check_degenerate o m Hz)).
    rewrite (bind_ok get _ o [] o o eq_refl). cbv beta iota zeta.
    apply Qle_bool_false in Hthr. rewrite Hthr, Hlast. reflexivity. }
  rewrite ticks_cons, (bind_ok _ _ _ _ _ _ Hup), IH. reflexivity.
Qed.

(** C3, as the code has it. For an Observer with [_sq_alpha] zero,
    [check] returns similarity 1 at (0, 0) without a call to the capture
    or to the matcher, whatever they would answer. When moreover the
    threshold is at most 1 and nothing was found yet, the first tick
    fires FOUND at (0, 0) and nothing else, the Observer is present at
    (0, 0) from then on, and no later tick fires anything or changes
    anything.  (With a threshold above 1 no tick fires anything.) *)
Theorem degenerate_template_found_once o :
  wf_register o.(_fun_register) →
  (o.(_sq_alpha) == 0)%Q →
  (∀ m, check m o = mkOutcome [] o (Ok ((0, 0), 1%Q)))
  ∧ ((o.(_threshold) <= 1)%Q → o.(_lastFound) = None →
       let present := set_lastFound (Some (0, 0)) o in
       (∀ m, update m o
             = mkOutcome (dispatch o.(_fun_register) ON_FOUND (0, 0)) present (Ok tt))
       ∧ (∀ ms, ticks ms present = mkOutcome [] present (Ok tt)))
  ∧ ((1 < o.(_threshold))%Q → o.(_lastFound) = None →
       ∀ ms, ticks ms o = mkOutcome [] o (Ok tt)).
Proof.
  intros Hwf Hz. apply Qeq_bool_iff in Hz. split; [|split].
  - intros m. apply check_degenerate, Hz.
  - intros Hthr Hlast present. split.
    + intros m.
      rewrite (update_eq o m [] (0, 0) 1%Q Hwf (check_degenerate o m Hz)).
      cbn zeta. apply Qle_bool_iff in Hthr. rewrite Hthr, Hlast. reflexivity.
    + intros ms.
      rewrite (ticks_present ms present (0, 0)); [|exact Hwf|reflexivity|].
      * rewrite concat_checks_degenerate by exact Hz. reflexivity.
      * apply Forall_forall. intros m _. exists 1%Q.
        rewrite check_degenerate by exact Hz. split; [reflexivity|exact Hthr].
  - intros Hthr Hlast ms. apply ticks_degenerate_above_one; assumption.
Qed.

Lemma degenerate_template_witness :
  check sample_match (sample_observer 0 (1 # 2) None)
  = mkOutcome [] (sample_observer 0 (1 # 2) None) (Ok ((0, 0), 1%Q)).
Proof.
  refine (proj1 (degenerate_template_found_once (sample_observer 0 (1 # 2) None)
                   _ _) sample_match).
  - apply wf_sample.
  - reflexivity.
Defined.

(** C3, as the specification words it, fails: a zero-weight template
    under a threshold of 2 is built by [__init__], and its first tick
    fires nothing and leaves it absent. *)
Lemma degenerate_template_threshold_above_one :
  ∃ o, __init__ (sample_rgba 0) 2 None = Ok o
       ∧ (o.(_sq_alpha) == 0)%Q
       ∧ o.(_lastFound) = None
       ∧ fired (trace (update sample_match o)) = []
       ∧ (final (update sample_match o)).(_lastFound) = None.
Proof.
  eexists. split; [reflexivity|]. split; [reflexivity|].
  split; [reflexivity|]. split; vm_compute; reflexivity.
Qed.

(** ** The listener registry *)

Lemma list_remove_first fn before after :
  fn ∉ before → list_remove fn (before ++ fn :: after) = Some (before ++ after).
Proof.
  induction before as [|g before IH]; intros Hnot; cbn.
  - rewrite decide_True by reflexivity. reflexivity.
  - apply not_elem_of_cons in Hnot as [Hne Hnot].
    rewrite decide_False by congruence. rewrite IH by exact Hnot. reflexivity.
Qed.

Lemma list_remove_absent fn funs : fn ∉ funs → list_remove fn funs = None.
Proof.
  induction funs as [|g funs IH]; intros Hnot; cbn; [reflexivity|].
  apply not_elem_of_cons in Hnot as [Hne Hnot].
  rewrite decide_False by congruence. rewrite IH by exact Hnot. reflexivity.
Qed.

Lemma set_fun_register_same o : set_fun_register o.(_fun_register) o = o.
Proof. destruct o; reflexivity. Qed.

Lemma register_eq o fn trigger funs :
  trigger ∈ TRIGGERS →
  o.(_fun_register) !! trigger = Some funs →
  register fn trigger o
  = mkOutcome []
      (set_fun_register (<[trigger := funs ++ [fn]]> o.(_fun_register)) o) (Ok tt).
Proof.
  intros Hin Hreg. unfold register. rewrite decide_True by exact Hin.
  unfold getitem, bind, get. cbn [value final trace]. rewrite Hreg. reflexivity.
Qed.

Lemma unregister_eq o fn trigger funs :
  trigger ∈ TRIGGERS →
  o.(_fun_register) !! trigger = Some funs →
  unregister fn trigger o
  = match list_remove fn funs with
    | Some funs' =>
        mkOutcome [] (set_fun_register (<[trigger := funs']> o.(_fun_register)) o)
          (Ok tt)
    | None => mkOutcome [] o (Raise ValueError)
    end.
Proof.
  intros Hin Hreg. unfold unregister. rewrite decide_True by exact Hin.
  unfold getitem, bind, get. cbn [value final trace]. rewrite Hreg.
  cbn [value final trace ret]. destruct (list_remove fn funs); reflexivity.
Qed.

Lemma unknown_trigger_eq o fn trigger :
  trigger ∉ TRIGGERS →
  register fn trigger o = mkOutcome [] o (Raise (UnknownTrigger trigger))
  ∧ unregister fn trigger o = mkOutcome [] o (Raise (UnknownTrigger trigger)).
Proof.
  intros Hnot. unfold register, unregister.
  rewrite !decide_False by exact Hnot. split; reflexivity.
Qed.

(** [register] then [unregister] of the same listener under the same
    kind, computed. *)
Lemma register_unregister_eq o fn trigger funs :
  trigger ∈ TRIGGERS →
  o.(_fun_register) !! trigger = Some funs →
  bind (register fn trigger) (fun _ => unregister fn trigger) o
  = mkOutcome []
      (set_fun_register
         (<[trigger := match list_remove fn funs with
                       | Some funs' => funs' ++ [fn]
                       | None => funs
                       end]> o.(_fun_register)) o)
      (Ok tt).
Proof.
  intros Hin Hreg.
  rewrite (bind_ok _ _ _ _ _ _ (register_eq o fn trigger funs Hin Hreg)).
  rewrite (unregister_eq _ fn trigger (funs ++ [fn]) Hin)
    by (cbn; apply lookup_insert_eq).
  destruct (decide (fn ∈ funs)) as [Hel|Hnot].
  - apply list_elem_of_split_l in Hel as (before & after & -> & Hbefore).
    rewrite <- app_assoc. cbn [app].
    rewrite (list_remove_first fn before (after ++ [fn]) Hbefore).
    rewrite (list_remove_first fn before after Hbefore).
    cbn. rewrite insert_insert_eq, <- app_assoc. reflexivity.
  - rewrite (list_remove_first fn funs [] Hnot).
    rewrite (list_remove_absent fn funs Hnot).
    cbn. rewrite insert_insert_eq, app_nil_r. reflexivity.
Qed.

(** C6. [unregister(fn, trigger)] on a registry:
    - a trigger that is not one of the three kinds raises the
      "Unknown trigger" exception and changes nothing;
    - a listener that is not in the sequence of the kind raises the
      [ValueError] of [list.remove] and changes nothing;
    - otherwise exactly one occurrence of the listener leaves the
      sequence of the kind (the others keep their order), and nothing
      else changes.
    The three kinds are FOUND = 1, LOST = 2 and MOVED = 3. *)
Theorem unregister_removes_one_occurrence o fn trigger :
  (trigger ∈ TRIGGERS ↔ trigger = ON_FOUND ∨ trigger = ON_LOST ∨ trigger = ON_MOVE)
  ∧ (trigger ∉ TRIGGERS →
       unregister fn trigger o = mkOutcome [] o (Raise (UnknownTrigger trigger)))
  ∧ (∀ funs, trigger ∈ TRIGGERS → o.(_fun_register) !! trigger = Some funs →
       fn ∉ funs →
       unregister fn trigger o = mkOutcome [] o (Raise ValueError))
  ∧ (∀ funs, trigger ∈ TRIGGERS → o.(_fun_register) !! trigger = Some funs →
       fn ∈ funs →
       ∃ before after,
         funs = before ++ fn :: after
         ∧ unregister fn trigger o
           = mkOutcome []
               (set_fun_register (<[trigger := before ++ after]> o.(_fun_register)) o)
               (Ok tt)
         ∧ (∀ g, count_occ Nat.eq_dec (before ++ after) g
                 = (count_occ Nat.eq_dec funs g - (if decide (g = fn) then 1 else 0))%nat)
         ∧ (∀ other, other ≠ trigger →
              <[trigger := before ++ after]> o.(_fun_register) !! other
              = o.(_fun_register) !! other)).
Proof.
  split; [|split; [|split]].
  - unfold TRIGGERS. rewrite !elem_of_cons, elem_of_nil. tauto.
  - intros Hnot. apply unknown_trigger_eq, Hnot.
  - intros funs Hin Hreg Hnot.
    rewrite (unregister_eq o fn trigger funs Hin Hreg).
    rewrite (list_remove_absent fn funs Hnot). reflexivity.
  - intros funs Hin Hreg Hel.
    apply list_elem_of_split_l in Hel as (before & after & -> & Hbefore).
    exists before, after. split; [reflexivity|]. split; [|split].
    + rewrite (unregister_eq o fn trigger _ Hin Hreg).
      rewrite (list_remove_first fn before after Hbefore). reflexivity.
    + intros g. rewrite !count_occ_app. cbn [count_occ].
      destruct (Nat.eq_dec fn g) as [->|Hne].
      * rewrite decide_True by reflexivity. lia.
      * rewrite decide_False by congruence. lia.
    + intros other Hne. apply lookup_insert_ne. congruence.
Qed.

(** The order in which [_trigger] calls the listeners of a kind is the
    order of the sequence of that kind. *)
Lemma trigger_calls o trigger loc funs :
  o.(_fun_register) !! trigger = Some funs →
  calls (trace (_trigger trigger loc o)) = (fun f => (f, loc)) <$> funs.
Proof.
  intros Hreg. rewrite trigger_dispatch by eauto. cbn [trace].
  rewrite calls_dispatch, Hreg. reflexivity.
Qed.

(** C4, as the code has it. [register(fn, trigger)] followed by
    [unregister(fn, trigger)] for one of the three kinds returns
    normally, and when [fn] was not registered under that kind before,
    the Observer is exactly what it was: every kind dispatches as
    before.  When [fn] was registered before, its first occurrence goes
    and [fn] ends the sequence of the kind. *)
Theorem register_unregister_restores_fresh o fn trigger funs :
  trigger ∈ TRIGGERS →
  o.(_fun_register) !! trigger = Some funs →
  let r := bind (register fn trigger) (fun _ => unregister fn trigger) o in
  value r = Ok tt
  ∧ trace r = []
  ∧ (fn ∉ funs → final r = o)
  ∧ (∀ before after, funs = before ++ fn :: after → fn ∉ before →
       final r
       = set_fun_register
           (<[trigger := before ++ after ++ [fn]]> o.(_fun_register)) o).
Proof.
  intros Hin Hreg r. subst r.
  rewrite (register_unregister_eq o fn trigger funs Hin Hreg).
  cbn [value trace final]. split; [reflexivity|]. split; [reflexivity|]. split.
  - intros Hnot. rewrite (list_remove_absent fn funs Hnot).
    rewrite (insert_id _ _ _ Hreg). apply set_fun_register_same.
  - intros before after -> Hbefore.
    rewrite (list_remove_first fn before after Hbefore), <- app_assoc.
    reflexivity.
Qed.

Lemma register_unregister_witness :
  final (bind (register 5%nat ON_FOUND) (fun _ => unregister 5%nat ON_FOUND)
           (sample_observer 6 (1 # 2) None))
  = sample_observer 6 (1 # 2) None.
Proof.
  refine (proj1 (proj2 (proj2 (register_unregister_restores_fresh
            (sample_observer 6 (1 # 2) None) 5%nat ON_FOUND [1%nat; 2%nat] _ _))) _).
  - apply FOUND_in_TRIGGERS.
  - reflexivity.
  - repeat (apply not_elem_of_cons; split; [discriminate|]). apply not_elem_of_nil.
Defined.

(** C4, as the specification words it, fails: with listeners 1 and 2
    registered for FOUND in this order, registering 1 once more and
    unregistering it leaves FOUND calling 2 before 1. *)
Lemma register_unregister_changes_order :
  let o := sample_observer 6 (1 # 2) None in
  let r := bind (register 1%nat ON_FOUND) (fun _ => unregister 1%nat ON_FOUND) o in
  value r = Ok tt
  ∧ calls (trace (_trigger ON_FOUND (3, 4) o)) = [(1%nat, (3, 4)); (2%nat, (3, 4))]
  ∧ calls (trace (_trigger ON_FOUND (3, 4) (final r)))
    = [(2%nat, (3, 4)); (1%nat, (3, 4))].
Proof. cbv zeta. split; [|split]; vm_compute; reflexivity. Qed.




(** ** Construction *)

(** *** Arrays of any number of axes *)

Lemma fmap_indices3 (f : list nat -> Q) (g : nat -> nat -> nat -> Q)
    (li lj lk : list nat) :
  (∀ i j k, f [i; j; k] = g i j k) →
  f <$> (i ← li; idx ← (j ← lj; idx' ← (k ← lk; idx'' ← [[]]; [k :: idx'']);
                          [j :: idx']); [i :: idx])
  = i ← li; j ← lj; k ← lk; [g i j k].
Proof.
  intros Hfg. induction li as [|i li IHi]; [reflexivity|].
  rewrite !bind_cons, fmap_app, IHi. f_equal. clear IHi.
  induction lj as [|j lj IHj]; [reflexivity|].
  rewrite !bind_cons, bind_app, fmap_app, IHj. f_equal. clear IHj.
  induction lk as [|k lk IHk]; [reflexivity|].
  rewrite !bind_cons, !bind_app, !fmap_app, IHk. f_equal.
  cbn. rewrite Hfg. reflexivity.
Qed.

(** The items of an array of three axes are the same in both models,
    and in the same order. *)
Lemma a_items_same x y : same_array x y → a_items x = items y.
Proof.
  intros [Hshape Hitem]. unfold a_items, items. rewrite Hshape.
  cbn [indices]. apply fmap_indices3, Hitem.
Qed.

Lemma same_array_of_ndarray a : same_array (of_ndarray a) a.
Proof. split; reflexivity. Qed.

(** On an array of three axes and without rounding, [__init__template]
    is [__init__]: the same exception, or the same image, mask and
    weight. *)
Lemma init_template_three_axes (a : ndarray) threshold bbox :
  match __init__ a threshold bbox, __init__template exact (of_ndarray a) with
  | Ok o, Ok (image, mask, w) =>
      same_array image o.(_template_image)
      ∧ match mask, o.(_template_mask) with
        | Some m, Some m' => same_array m m'
        | None, None => True
        | _, _ => False
        end
      ∧ w = o.(_sq_alpha)
  | Raise e, Raise e' => e = e'
  | _, _ => False
  end.
Proof.
  unfold __init__, __init__template. cbn [of_ndarray a_shape lookup list_lookup].
  destruct (decide (depth a = 4%nat)) as [H4|H4].
  - unfold np_split_last, a_split_last. rewrite H4. cbn [Nat.sub].
    cbn [_template_image _template_mask _sq_alpha].
    split; [split; reflexivity|]. split; [split; reflexivity|].
    unfold np_sum, exact. cbn [f_sum f_square f_float32 f_scale255]. f_equal.
    apply a_items_same. split; reflexivity.
  - destruct (decide (depth a = 3%nat)) as [H3|H3]; [|reflexivity].
    cbn [_template_image _template_mask _sq_alpha].
    split; [apply same_array_of_ndarray|]. split; [exact I|].
    cbn [a_shape of_ndarray take foldr]. rewrite Nat.mul_1_r. reflexivity.
Qed.

(** An array without a third axis: reading [template.shape[2]] raises. *)
Lemma init_template_too_few_axes ops template :
  (length (a_shape template) < 3)%nat →
  __init__template ops template = Raise IndexError.
Proof.
  intros Hlen. unfold __init__template.
  rewrite (proj2 (lookup_ge_None (a_shape template) 2%nat)) by lia.
  reflexivity.
Qed.



(** ** [run] and [stop] *)

Lemma run_running s p h :
  s.(observer).(_current_thread) = Some h →
  run p s = mkOutcome [] s (Raise AlreadyRunning).
Proof. intros H. unfold run, bind, get. cbn. rewrite H. reflexivity. Qed.

Lemma run_idle s p :
  s.(observer).(_current_thread) = None →
  run p s
  = mkOutcome []
      (mkProcess
         (set_current_thread (Some (length s.(threads), length s.(events)))
            s.(observer))
         (s.(threads) ++ [mkThread (length s.(events)) p Waiting])
         (s.(events) ++ [false]))
      (Ok tt).
Proof.
  intros H. unfold run, bind, get. cbn. rewrite H. cbn.
  unfold set_pc, set_observer. cbn. f_equal. f_equal.
  rewrite <- (Nat.add_0_r (length (threads s))) at 1.
  rewrite alter_app_r. reflexivity.
Qed.

Lemma stop_idle s :
  s.(observer).(_current_thread) = None →
  stop s = Returned (mkOutcome [] s (Raise NotRunning)).
Proof. intros H. unfold stop. rewrite H. reflexivity. Qed.

Lemma stop_running s t e :
  s.(observer).(_current_thread) = Some (t, e) →
  stop s
  = Joining t (mkProcess s.(observer) s.(threads) (<[e := true]> s.(events)))
      (on_observer (modify (set_current_thread None))).
Proof. intros H. unfold stop. rewrite H. reflexivity. Qed.

(** What [stop] goes on with after [join]: the run handle is cleared. *)
Lemma stop_resume_eq s :
  on_observer (modify (set_current_thread None)) s
  = mkOutcome [] (set_observer (set_current_thread None s.(observer)) s) (Ok tt).
Proof. reflexivity. Qed.

(** What the methods of the registry and [update] leave alone. *)
Lemma update_preserves o m :
  wf_register o.(_fun_register) →
  value (update m o) = Ok tt
  ∧ (final (update m o)).(_current_thread) = o.(_current_thread)
  ∧ (final (update m o)).(_fun_register) = o.(_fun_register).
Proof.
  intros Hwf. destruct (check_returns o m) as (tr & loc & sim & Heq & _ & _).
  rewrite (update_eq o m tr loc sim Hwf Heq). cbn zeta.
  destruct (Qle_bool _ _), (_lastFound o) as [last|];
    try destruct (decide (loc ≠ last)); done.
Qed.

Lemma wf_register_insert reg t funs :
  wf_register reg → wf_register (<[t := funs]> reg).
Proof.
  intros Hwf t' Ht'. destruct (decide (t = t')) as [->|Hne].
  - rewrite lookup_insert_eq. eauto.
  - rewrite lookup_insert_ne by exact Hne. apply Hwf, Ht'.
Qed.

Lemma register_preserves o fn trigger :
  wf_register o.(_fun_register) →
  (final (register fn trigger o)).(_current_thread) = o.(_current_thread)
  ∧ wf_register (final (register fn trigger o)).(_fun_register).
Proof.
  intros Hwf. destruct (decide (trigger ∈ TRIGGERS)) as [Hin|Hnot].
  - destruct (Hwf trigger Hin) as [funs Hreg].
    rewrite (register_eq o fn trigger funs Hin Hreg). cbn.
    split; [reflexivity | apply wf_register_insert, Hwf].
  - rewrite (proj1 (unknown_trigger_eq o fn trigger Hnot)). done.
Qed.

Lemma unregister_preserves o fn trigger :
  wf_register o.(_fun_register) →
  (final (unregister fn trigger o)).(_current_thread) = o.(_current_thread)
  ∧ wf_register (final (unregister fn trigger o)).(_fun_register).
Proof.
  intros Hwf. destruct (decide (trigger ∈ TRIGGERS)) as [Hin|Hnot].
  - destruct (Hwf trigger Hin) as [funs Hreg].
    rewrite (unregister_eq o fn trigger funs Hin Hreg).
    destruct (list_remove fn funs); cbn; [|done].
    split; [reflexivity | apply wf_register_insert, Hwf].
  - rewrite (proj2 (unknown_trigger_eq o fn trigger Hnot)). done.
Qed.

Lemma wf_empty_register : wf_register empty_register.
Proof.
  intros t Ht. unfold TRIGGERS in Ht.
  repeat (apply elem_of_cons in Ht as [->|Ht]); [| | |by apply elem_of_nil in Ht];
    vm_compute; eauto.
Qed.

(** [__init__] leaves an Observer that found nothing, has a sequence for
    each kind, none of them with a listener, and is not running. *)
Lemma init_state template threshold bbox o :
  __init__ template threshold bbox = Ok o →
  o.(_lastFound) = None
  ∧ o.(_fun_register) = empty_register
  ∧ wf_register o.(_fun_register)
  ∧ o.(_current_thread) = None
  ∧ o.(_threshold) = threshold
  ∧ o.(_bbox) = bbox.
Proof.
  unfold __init__. destruct (decide (depth template = 4%nat)).
  - destruct (np_split_last template). intros [= <-]. cbn.
    repeat split. apply wf_empty_register.
  - destruct (decide (depth template = 3%nat)); [|discriminate].
    intros [= <-]. cbn. repeat split. apply wf_empty_register.
Qed.

(** ** The invariant of the machine *)

Lemma invariant_boot o :
  wf_register o.(_fun_register) →
  o.(_current_thread) = None →
  invariant (boot o).
Proof.
  intros Hwf Hcur. split; cbn.
  - intros t th Ht. rewrite lookup_nil in Ht. discriminate.
  - intros t e He. congruence.
  - intros t e _ He. congruence.
  - intros t resume Ht. discriminate.
  - intros t th Ht. rewrite lookup_nil in Ht. discriminate.
  - exact Hwf.
Qed.

(** A method that leaves the run handle alone and the registry well
    formed keeps the invariant. *)
Lemma invariant_observer s c o' :
  invariant (mkMachine s c) →
  o'.(_current_thread) = s.(observer).(_current_thread) →
  wf_register o'.(_fun_register) →
  invariant (mkMachine (set_observer o' s) c).
Proof.
  intros [Hl Hh Hi Hj Hs Hr] He Hwf. split; cbn in *.
  - intros t th. rewrite He. apply Hl.
  - intros t e. rewrite He. apply Hh.
  - intros t e. rewrite He. apply Hi.
  - intros t resume. rewrite He. apply Hj.
  - exact Hs.
  - exact Hwf.
Qed.

(** A worker that moves on inside its loop keeps the invariant. *)
Lemma invariant_worker_moves s c t th pc :
  invariant (mkMachine s c) →
  s.(threads) !! t = Some th →
  th.(t_pc) ≠ Exited →
  pc ≠ Created → pc ≠ Exited →
  invariant (mkMachine (set_pc t pc s) c).
Proof.
  intros [Hl Hh Hi Hj Hs Hr] Ht Hne Hc He. split; cbn in *.
  - intros t' th'. rewrite list_lookup_alter. case_decide as Heq.
    + subst t'. rewrite Ht. cbn. intros [= <-] _. cbn. apply (Hl _ _ Ht Hne).
    + apply Hl.
  - intros t0 e0 Hcur. destruct (Hh _ _ Hcur) as (th0 & Hth0 & Hev & Hsome).
    rewrite list_lookup_alter. case_decide as Heq.
    + subst t0. rewrite Ht. cbn. eexists. split; [reflexivity|].
      cbn. split; [congruence | exact Hsome].
    + eauto.
  - intros t0 e0 Hc0 Hcur.
    destruct (Hi _ _ Hc0 Hcur) as [(th0 & Hth0 & Hlive) Hflag].
    split; [|exact Hflag]. unfold live. cbn.
    rewrite list_lookup_alter. case_decide as Heq.
    + subst t0. rewrite Ht. cbn. eexists. split; [reflexivity|]. cbn. exact He.
    + eauto.
  - exact Hj.
  - intros t' th'. rewrite list_lookup_alter. case_decide as Heq.
    + subst t'. rewrite Ht. cbn. intros [= <-]. cbn. exact Hc.
    + apply Hs.
  - exact Hr.
Qed.

(** A worker whose wait returns [True] leaves: the invariant stays. *)
Lemma invariant_worker_exits s c t th :
  invariant (mkMachine s c) →
  s.(threads) !! t = Some th →
  th.(t_pc) ≠ Exited →
  s.(events) !! th.(t_stop_event) = Some true →
  invariant (mkMachine (set_pc t Exited s) c).
Proof.
  intros [Hl Hh Hi Hj Hs Hr] Ht Hne Hflag. split; cbn in *.
  - intros t' th'. rewrite list_lookup_alter. case_decide as Heq.
    + subst t'. rewrite Ht. cbn. intros [= <-]. cbn. done.
    + apply Hl.
  - intros t0 e0 Hcur. destruct (Hh _ _ Hcur) as (th0 & Hth0 & Hev & Hsome).
    rewrite list_lookup_alter. case_decide as Heq.
    + subst t0. rewrite Ht. cbn. eexists. split; [reflexivity|].
      cbn. split; [congruence | exact Hsome].
    + eauto.
  - intros t0 e0 Hc0 Hcur. exfalso.
    destruct (Hi _ _ Hc0 Hcur) as [_ Hfalse].
    pose proof (Hl _ _ Ht Hne) as Hcur'. rewrite Hcur in Hcur'.
    injection Hcur' as -> ->. congruence.
  - exact Hj.
  - intros t' th'. rewrite list_lookup_alter. case_decide as Heq.
    + subst t'. rewrite Ht. cbn. intros [= <-]. cbn. done.
    + apply Hs.
  - exact Hr.
Qed.

(** With no run handle, every worker has left its loop. *)
Lemma no_handle_no_worker s t :
  invariant s →
  s.(proc).(observer).(_current_thread) = None →
  ¬ live s.(proc) t.
Proof.
  intros Hinv Hcur (th & Ht & Hne).
  pose proof (inv_live s Hinv t th Ht Hne) as H. congruence.
Qed.

Lemma invariant_run s p :
  invariant (mkMachine s Idle) →
  invariant (mkMachine (final (run p s)) Idle).
Proof.
  intros Hinv. destruct (_current_thread (observer s)) as [h|] eqn:Hcur.
  - rewrite (run_running s p h Hcur). exact Hinv.
  - rewrite (run_idle s p Hcur). cbn [final].
    assert (Hdead : ∀ t th, threads s !! t = Some th → t_pc th = Exited).
    { intros t th Ht. destruct (decide (t_pc th = Exited)) as [|Hne]; [done|].
      exfalso. apply (no_handle_no_worker _ t Hinv Hcur). exists th. done. }
    destruct Hinv as [Hl Hh Hi Hj Hs Hr]. split; cbn in *.
    + intros t th Ht Hne. apply lookup_snoc_Some in Ht as [[_ Ht]|[-> <-]].
      * exfalso. apply Hne. eapply Hdead, Ht.
      * reflexivity.
    + intros t e [= <- <-]. eexists. split; [|split].
      * apply lookup_snoc_Some. right. split; reflexivity.
      * reflexivity.
      * exists false. apply lookup_snoc_Some. right. split; reflexivity.
    + intros t e _ [= <- <-]. split.
      * eexists. split; [apply lookup_snoc_Some; right; split; reflexivity|].
        cbn. discriminate.
      * apply lookup_snoc_Some. right. split; reflexivity.
    + intros t resume Ht. discriminate.
    + intros t th Ht. apply lookup_snoc_Some in Ht as [[_ Ht]|[_ <-]].
      * eapply Hs, Ht.
      * cbn. discriminate.
    + exact Hr.
Qed.

Lemma invariant_stop s :
  invariant (mkMachine s Idle) →
  invariant
    (match stop s with
     | Returned r => mkMachine (final r) Idle
     | Joining thread blocked resume => mkMachine blocked (InJoin thread resume)
     end).
Proof.
  intros Hinv. destruct (_current_thread (observer s)) as [[t e]|] eqn:Hcur.
  - rewrite (stop_running s t e Hcur).
    destruct Hinv as [Hl Hh Hi Hj Hs Hr]. split; cbn in *.
    + exact Hl.
    + intros t0 e0 Hcur0. destruct (Hh _ _ Hcur0) as (th0 & Hth0 & Hev & Hsome).
      exists th0. split; [exact Hth0|]. split; [exact Hev|].
      apply list_lookup_insert_is_Some, Hsome.
    + intros t0 e0 Hc. discriminate.
    + intros t0 resume [= <- <-]. split; [reflexivity|].
      exists e. split; [exact Hcur|].
      destruct (Hh _ _ Hcur) as (_ & _ & _ & Hsome).
      apply list_lookup_insert_eq, lookup_lt_is_Some, Hsome.
    + exact Hs.
    + exact Hr.
  - rewrite (stop_idle s Hcur). exact Hinv.
Qed.

Lemma invariant_join_returns s t resume th :
  invariant (mkMachine s (InJoin t resume)) →
  s.(threads) !! t = Some th →
  th.(t_pc) = Exited →
  invariant (mkMachine (final (resume s)) Idle).
Proof.
  intros [Hl Hh Hi Hj Hs Hr] Ht Hpc.
  destruct (Hj t resume eq_refl) as (-> & e & Hcur & _).
  rewrite stop_resume_eq. split; cbn in *.
  - intros t' th' Ht' Hne. exfalso.
    pose proof (Hl _ _ Ht' Hne) as Hcur'. rewrite Hcur in Hcur'.
    injection Hcur' as -> ->. congruence.
  - intros t0 e0 Hcur0. discriminate.
  - intros t0 e0 _ Hcur0. discriminate.
  - intros t0 resume0 Hc. discriminate.
  - exact Hs.
  - exact Hr.
Qed.

Lemma invariant_exec a s s' :
  invariant s → exec a s = Some s' → invariant s'.
Proof.
  intros Hinv. destruct s as [s c]. unfold exec. cbn [caller proc].
  pose proof (inv_register _ Hinv) as Hwf. cbn in Hwf.
  destruct a as [p| | |fn trigger|fn trigger|m|t|t|t m].
  - destruct c; [|discriminate]. intros [= <-]. apply invariant_run, Hinv.
  - destruct c; [|discriminate]. intros Hstop.
    pose proof (invariant_stop s Hinv) as Hinv'.
    destruct (stop s); injection Hstop as <-; exact Hinv'.
  - destruct c as [|t resume]; [discriminate|].
    destruct (threads s !! t) as [th|] eqn:Ht; [|discriminate]. cbn.
    case_decide as Hpc; [|discriminate]. intros [= <-].
    eapply invariant_join_returns; eauto.
  - destruct c; [|discriminate]. intros [= <-]. cbn.
    destruct (register_preserves (observer s) fn trigger Hwf).
    apply invariant_observer; assumption.
  - destruct c; [|discriminate]. intros [= <-]. cbn.
    destruct (unregister_preserves (observer s) fn trigger Hwf).
    apply invariant_observer; assumption.
  - destruct c; [|discriminate]. intros [= <-]. cbn.
    destruct (update_preserves (observer s) m Hwf) as (_ & ? & Hreg).
    apply invariant_observer; [exact Hinv|assumption|]. rewrite Hreg. exact Hwf.
  - unfold async_run_wait.
    destruct (threads s !! t) as [th|] eqn:Ht; [|discriminate]. cbn.
    destruct (events s !! t_stop_event th) as [flag|] eqn:He; [|discriminate]. cbn.
    case_decide as Hpc; [|discriminate]. case_decide as Hflag; [|discriminate].
    intros [= <-]. eapply invariant_worker_moves; eauto; congruence.
  - unfold async_run_wait.
    destruct (threads s !! t) as [th|] eqn:Ht; [|discriminate]. cbn.
    destruct (events s !! t_stop_event th) as [flag|] eqn:He; [|discriminate]. cbn.
    case_decide as Hpc; [|discriminate]. case_decide as Hflag; [|discriminate].
    intros [= <-]. subst flag. eapply invariant_worker_exits; eauto; congruence.
  - unfold async_run_update.
    destruct (threads s !! t) as [th|] eqn:Ht; [|discriminate]. cbn.
    case_decide as Hpc; [|discriminate]. intros [= <-].
    destruct (update_preserves (observer s) m Hwf) as (Hval & Hcur & Hreg).
    rewrite Hval.
    eapply (invariant_worker_moves (set_observer _ s)); [|exact Ht| | |];
      try congruence.
    apply invariant_observer; [exact Hinv|exact Hcur|]. rewrite Hreg. exact Hwf.
Qed.

Lemma invariant_execs acts s s' :
  invariant s → execs acts s = Some s' → invariant s'.
Proof.
  revert s. induction acts as [|a acts IH]; intros s Hinv; cbn.
  - intros [= <-]. exact Hinv.
  - destruct (exec a s) as [s1|] eqn:Hex; [|discriminate]. cbn.
    apply IH. eapply invariant_exec; eauto.
Qed.

(** ** The life cycle *)

Lemma live_unique s t1 t2 :
  invariant s → live s.(proc) t1 → live s.(proc) t2 → t1 = t2.
Proof.
  intros Hinv (th1 & Ht1 & Hne1) (th2 & Ht2 & Hne2).
  pose proof (inv_live s Hinv t1 th1 Ht1 Hne1) as H1.
  pose proof (inv_live s Hinv t2 th2 Ht2 Hne2) as H2.
  congruence.
Qed.

(** A worker action needs a worker in its loop. *)
Lemma worker_action_live a s s' :
  is_worker_action a = true → exec a s = Some s' →
  ∃ t, live s.(proc) t.
Proof.
  intros Hw. destruct a as [| | | | | |t|t|t m]; try discriminate Hw;
    unfold exec, async_run_wait, async_run_update;
    destruct (threads (proc s) !! t) as [th|] eqn:Ht; cbn; try discriminate.
  - destruct (events (proc s) !! t_stop_event th); cbn; [|discriminate].
    case_decide as Hpc; [|discriminate]. intros _. exists t, th. split; congruence.
  - destruct (events (proc s) !! t_stop_event th); cbn; [|discriminate].
    case_decide as Hpc; [|discriminate]. intros _. exists t, th. split; congruence.
  - case_decide as Hpc; [|discriminate]. intros _. exists t, th. split; congruence.
Qed.

(** Only [run] makes a worker: from a state without one, a step that is
    not a call of [run] is not a worker's, and leaves none. *)
Lemma no_worker_step a s s' :
  invariant s →
  (∀ t, ¬ live s.(proc) t) →
  is_call_run a = false →
  exec a s = Some s' →
  is_worker_action a = false ∧ ∀ t, ¬ live s'.(proc) t.
Proof.
  intros Hinv Hnone Hrun Hex.
  destruct (is_worker_action a) eqn:Hw.
  { destruct (worker_action_live a s s' Hw Hex) as [t Ht]. destruct (Hnone t Ht). }
  split; [reflexivity|].
  assert (Hthreads : threads (proc s') = threads (proc s)).
  { destruct s as [s c]. unfold exec in Hex. cbn [caller proc] in Hex.
    destruct a as [p| | |fn trigger|fn trigger|m|t|t|t m]; try discriminate.
    - destruct c; [|discriminate]. unfold stop in Hex.
      destruct (_current_thread (observer s)) as [[t e]|];
        injection Hex as <-; reflexivity.
    - destruct c as [|t resume]; [discriminate|].
      pose proof (inv_join _ Hinv t resume eq_refl) as (-> & _).
      destruct (threads s !! t) as [th|]; [|discriminate]. cbn in Hex.
      case_decide; [|discriminate]. injection Hex as <-. reflexivity.
    - destruct c; [|discriminate]. injection Hex as <-. reflexivity.
    - destruct c; [|discriminate]. injection Hex as <-. reflexivity.
    - destruct c; [|discriminate]. injection Hex as <-. reflexivity. }
  intros t (th & Ht & Hne). apply (Hnone t). exists th.
  rewrite <- Hthreads. done.
Qed.

Lemma no_worker_steps acts s s' :
  invariant s →
  (∀ t, ¬ live s.(proc) t) →
  Forall (fun a => is_call_run a = false) acts →
  execs acts s = Some s' →
  Forall (fun a => is_worker_action a = false) acts ∧ ∀ t, ¬ live s'.(proc) t.
Proof.
  intros Hinv Hnone Hall. revert s Hinv Hnone.
  induction Hall as [|a acts Ha _ IH]; intros s Hinv Hnone; cbn.
  - intros [= <-]. split; [constructor | exact Hnone].
  - destruct (exec a s) as [s1|] eqn:Hex; [|discriminate]. cbn. intros Hrest.
    destruct (no_worker_step a s s1 Hinv Hnone Ha Hex) as [Hw Hnone1].
    pose proof (invariant_exec a s s1 Hinv Hex) as Hinv1.
    destruct (IH s1 Hinv1 Hnone1 Hrest) as [Hws Hnone'].
    split; [constructor; assumption | exact Hnone'].
Qed.

Lemma lookup_set_pc s t pc th :
  s.(threads) !! t = Some th →
  (set_pc t pc s).(threads) !! t
  = Some (mkThread th.(t_stop_event) th.(t_period) pc).
Proof.
  intros Ht. unfold set_pc. cbn [threads].
  rewrite list_lookup_alter_eq, Ht. reflexivity.
Qed.

(** [thread.join()] returns exactly when the thread is over. *)
Lemma join_returns_iff s t resume :
  is_Some (exec join_returns (mkMachine s (InJoin t resume)))
  ↔ ∃ th, s.(threads) !! t = Some th ∧ th.(t_pc) = Exited.
Proof.
  unfold exec. cbn [caller proc].
  destruct (threads s !! t) as [th|]; cbn.
  - case_decide as Hpc.
    + split; [intros _; eauto | intros _; eauto].
    + split; [intros [? [=]] | intros (th' & [= <-] & ?); done].
  - split; [intros [? [=]] | intros (th' & [=] & _)].
Qed.

Lemma exec_wait_signalled s c t th :
  s.(threads) !! t = Some th → th.(t_pc) = Waiting →
  s.(events) !! th.(t_stop_event) = Some true →
  exec (wait_signalled t) (mkMachine s c) = Some (mkMachine (set_pc t Exited s) c).
Proof.
  intros Ht Hpc Hflag. unfold exec, async_run_wait. cbn [caller proc].
  rewrite Ht. cbn [mbind option_bind]. rewrite Hflag. cbn [mbind option_bind].
  rewrite decide_True by exact Hpc. rewrite decide_True by reflexivity.
  reflexivity.
Qed.

Lemma exec_loop_update s c t th m :
  wf_register s.(observer).(_fun_register) →
  s.(threads) !! t = Some th → th.(t_pc) = Ticking →
  exec (loop_update t m) (mkMachine s c)
  = Some (mkMachine (set_pc t Waiting (final (on_observer (update m) s))) c).
Proof.
  intros Hwf Ht Hpc. unfold exec, async_run_update. cbn [caller proc].
  rewrite Ht. cbn [mbind option_bind]. rewrite decide_True by exact Hpc.
  cbn [on_observer value]. rewrite (proj1 (update_preserves _ m Hwf)).
  reflexivity.
Qed.

(** A caller inside [join] gets out: the worker leaves its loop after,
    at most, the tick that is under way. *)
Lemma join_progress s t resume m :
  invariant s → s.(caller) = InJoin t resume →
  ∃ ws s',
    ws ∈ [[]; [wait_signalled t]; [loop_update t m; wait_signalled t]]
    ∧ execs ws s = Some s'
    ∧ is_Some (exec join_returns s').
Proof.
  intros Hinv Hc. destruct s as [s c]. cbn in Hc. subst c.
  destruct (inv_join _ Hinv t resume eq_refl) as (_ & e & Hcur & Hflag).
  cbn in Hcur, Hflag.
  destruct (inv_handle _ Hinv t e Hcur) as (th & Ht & Hev & _). cbn in Ht.
  pose proof (inv_started _ Hinv t th Ht) as Hstarted.
  pose proof (inv_register _ Hinv) as Hwf. cbn in Hwf.
  destruct (t_pc th) eqn:Hpc; [done| | |].
  - (* waiting: the wait returns True *)
    exists [wait_signalled t], (mkMachine (set_pc t Exited s) (InJoin t resume)).
    split; [set_solver|]. split.
    + cbn [execs]. rewrite (exec_wait_signalled s _ t th Ht Hpc) by congruence.
      reflexivity.
    + apply join_returns_iff. eexists. split; [apply lookup_set_pc, Ht|reflexivity].
  - (* a tick is under way: it ends, then the wait returns True *)
    set (s1 := set_pc t Waiting (final (on_observer (update m) s))).
    pose proof (lookup_set_pc (final (on_observer (update m) s)) t Waiting th Ht)
      as Ht1. fold s1 in Ht1.
    exists [loop_update t m; wait_signalled t],
      (mkMachine (set_pc t Exited s1) (InJoin t resume)).
    split; [set_solver|]. split.
    + cbn [execs]. rewrite (exec_loop_update s _ t th m Hwf Ht Hpc).
      cbn [mbind option_bind]. fold s1.
      rewrite (exec_wait_signalled s1 _ t _ Ht1 eq_refl); [reflexivity|].
      cbn [t_stop_event]. rewrite Hev. exact Hflag.
    + apply join_returns_iff. eexists. split; [apply lookup_set_pc, Ht1|reflexivity].
  - (* the worker has left already *)
    exists [], (mkMachine s (InJoin t resume)). split; [set_solver|].
    split; [reflexivity|]. apply join_returns_iff. eauto.
Qed.

Lemma exec_call_stop_running s t e :
  s.(caller) = Idle →
  s.(proc).(observer).(_current_thread) = Some (t, e) →
  exec call_stop s
  = Some (mkMachine
            (mkProcess s.(proc).(observer) s.(proc).(threads)
               (<[e := true]> s.(proc).(events)))
            (InJoin t (on_observer (modify (set_current_thread None))))).
Proof.
  intros Hc Hcur. unfold exec. rewrite Hc.
  rewrite (stop_running _ t e Hcur). reflexivity.
Qed.

Lemma exec_join_returns_clears s s' :
  invariant s →
  exec join_returns s = Some s' →
  s'.(proc).(observer).(_current_thread) = None ∧ s'.(caller) = Idle.
Proof.
  intros Hinv. unfold exec. destruct (caller s) as [|t resume] eqn:Hc; [discriminate|].
  destruct (inv_join s Hinv t resume Hc) as (-> & _).
  destruct (threads (proc s) !! t) as [th|]; [|discriminate]. cbn.
  case_decide; [|discriminate]. intros [= <-]. split; reflexivity.
Qed.

(** A call of [stop] on a running Observer, from its entry to its
    return: the event is set, the caller waits in [join] while the
    worker ends, [join] returns and the run handle is cleared. *)
Lemma stop_completes s t e m :
  invariant s → s.(caller) = Idle →
  s.(proc).(observer).(_current_thread) = Some (t, e) →
  ∃ s1 ws s2 s3,
    exec call_stop s = Some s1
    ∧ s1.(caller) = InJoin t (on_observer (modify (set_current_thread None)))
    ∧ s1.(proc).(events) !! e = Some true
    ∧ ws ∈ [[]; [wait_signalled t]; [loop_update t m; wait_signalled t]]
    ∧ execs ws s1 = Some s2
    ∧ exec join_returns s2 = Some s3
    ∧ invariant s3
    ∧ s3.(proc).(observer).(_current_thread) = None
    ∧ s3.(caller) = Idle.
Proof.
  intros Hinv Hc Hcur.
  pose proof (exec_call_stop_running s t e Hc Hcur) as Hstop.
  set (s1 := mkMachine _ (InJoin t _)) in Hstop.
  assert (Hinv1 : invariant s1) by (eapply invariant_exec; eauto).
  destruct (inv_join _ Hinv1 t _ eq_refl) as (_ & e' & Hcur1 & Hflag).
  cbn in Hcur1. rewrite Hcur in Hcur1. injection Hcur1 as <-.
  destruct (join_progress s1 t _ m Hinv1 eq_refl)
    as (ws & s2 & Hws & Hex & [s3 Hret]).
  assert (Hinv2 : invariant s2) by (eapply invariant_execs; eauto).
  assert (Hinv3 : invariant s3) by (eapply invariant_exec; eauto).
  destruct (exec_join_returns_clears s2 s3 Hinv2 Hret) as [Hcur3 Hc3].
  exists s1, ws, s2, s3.
  split; [exact Hstop|]. split; [reflexivity|]. split; [exact Hflag|].
  split; [exact Hws|]. split; [exact Hex|]. split; [exact Hret|].
  split; [exact Hinv3|]. split; [exact Hcur3 | exact Hc3].
Qed.

(** C7. In every state the process reaches after construction:
    - [run] raises "already running" and changes nothing when there is a
      run handle; without one it returns, and the run handle is a new
      thread, waiting on a new event that is not set;
    - [stop] raises "not running" and changes nothing when there is no
      run handle; with one, the call runs to its return, and the run
      handle is then cleared;
    - after the return of [stop], [run] returns normally: a new worker
      starts, with a wait;
    - at most one worker is in its loop, and it is the thread of the run
      handle. *)
Theorem run_stop_lifecycle o acts s :
  wf_register o.(_fun_register) →
  o.(_current_thread) = None →
  execs acts (boot o) = Some s →
  let p := s.(proc) in
  (∀ period h, p.(observer).(_current_thread) = Some h →
     run period p = mkOutcome [] p (Raise AlreadyRunning))
  ∧ (∀ period, p.(observer).(_current_thread) = None →
       ∃ p' t e,
         run period p = mkOutcome [] p' (Ok tt)
         ∧ p'.(observer).(_current_thread) = Some (t, e)
         ∧ p.(threads) !! t = None ∧ p.(events) !! e = None
         ∧ p'.(threads) !! t = Some (mkThread e period Waiting)
         ∧ p'.(events) !! e = Some false)
  ∧ (p.(observer).(_current_thread) = None →
       stop p = Returned (mkOutcome [] p (Raise NotRunning)))
  ∧ (∀ t e, p.(observer).(_current_thread) = Some (t, e) →
       stop p
       = Joining t (mkProcess p.(observer) p.(threads) (<[e := true]> p.(events)))
           (on_observer (modify (set_current_thread None))))
  ∧ (∀ t e (m : MatchOutcome),
       s.(caller) = Idle → p.(observer).(_current_thread) = Some (t, e) →
       ∃ s1 ws s2 s3,
         exec call_stop s = Some s1
         ∧ execs ws s1 = Some s2
         ∧ ws ∈ [[]; [wait_signalled t]; [loop_update t m; wait_signalled t]]
         ∧ exec join_returns s2 = Some s3
         ∧ s3.(proc).(observer).(_current_thread) = None
         ∧ s3.(caller) = Idle
         ∧ ∀ period, value (run period s3.(proc)) = Ok tt)
  ∧ (∀ t1 t2, live p t1 → live p t2 → t1 = t2)
  ∧ (∀ t, live p t → ∃ e, p.(observer).(_current_thread) = Some (t, e)).
Proof.
  intros Hwf Hcur0 Hex p.
  assert (Hinv : invariant s).
  { eapply invariant_execs; [apply invariant_boot|]; eassumption. }
  split; [|split; [|split; [|split; [|split; [|split]]]]].
  - intros period h Hcur. apply (run_running p period h Hcur).
  - intros period Hcur. eexists _, _, _. split; [apply (run_idle p period Hcur)|].
    cbn. split; [reflexivity|].
    split; [apply lookup_ge_None; lia|]. split; [apply lookup_ge_None; lia|].
    split; apply lookup_snoc_Some; right; split; reflexivity.
  - intros Hcur. apply (stop_idle p Hcur).
  - intros t e Hcur. apply (stop_running p t e Hcur).
  - intros t e m Hc Hcur.
    destruct (stop_completes s t e m Hinv Hc Hcur)
      as (s1 & ws & s2 & s3 & Hstop & _ & _ & Hws & Hexs & Hret & _ & Hcur3 & Hc3).
    exists s1, ws, s2, s3.
    split; [exact Hstop|]. split; [exact Hexs|]. split; [exact Hws|].
    split; [exact Hret|]. split; [exact Hcur3|]. split; [exact Hc3|].
    intros period. rewrite (run_idle _ period Hcur3). reflexivity.
  - intros t1 t2. apply live_unique, Hinv.
  - intros t (th & Ht & Hne). eexists. apply (inv_live s Hinv t th Ht Hne).
Qed.

Lemma run_stop_witness :
  run 2%Q (after [call_run 1%Q] sample_machine).(proc)
  = mkOutcome [] (after [call_run 1%Q] sample_machine).(proc) (Raise AlreadyRunning).
Proof.
  refine (proj1 (run_stop_lifecycle (sample_observer 6 (1 # 2) None) [call_run 1%Q]
                   (after [call_run 1%Q] sample_machine) _ _ _) 2%Q (0%nat, 0%nat) _).
  - apply wf_sample.
  - reflexivity.
  - reflexivity.
  - reflexivity.
Defined.

(** Between the entry of [stop] and the return of [join], no wait of a
    worker times out: no new tick starts. *)
Lemma no_timeout_in_join s t resume t' :
  invariant s → s.(caller) = InJoin t resume →
  exec (wait_timeout t') s = None.
Proof.
  intros Hinv Hc. unfold exec, async_run_wait.
  destruct (threads (proc s) !! t') as [th|] eqn:Ht; [|reflexivity]. cbn.
  destruct (events (proc s) !! t_stop_event th) as [flag|] eqn:He; [|reflexivity].
  cbn. case_decide as Hpc; [|reflexivity]. case_decide as Hflag; [|reflexivity].
  exfalso. subst flag.
  destruct (inv_join s Hinv t resume Hc) as (_ & e & Hcur & Hset).
  assert (Hne : t_pc th ≠ Exited) by congruence.
  pose proof (inv_live s Hinv t' th Ht Hne) as Hcur'.
  rewrite Hcur in Hcur'. injection Hcur' as -> ->. congruence.
Qed.

(** A caller inside [join] makes no call. *)
Lemma blocked_in_join s t resume a :
  s.(caller) = InJoin t resume →
  is_worker_action a = false → a ≠ join_returns →
  exec a s = None.
Proof.
  intros Hc Hw Hj. unfold exec. rewrite Hc.
  destruct a; try reflexivity; try discriminate Hw. congruence.
Qed.

(** C9. In every state the process reaches after construction:
    - [stop] on a running Observer sets the event of the run handle, and
      the caller is then inside [thread.join()];
    - a caller inside [join] makes no other call, and [join] returns
      exactly when the worker has left its loop; meanwhile no wait of a
      worker times out, so no new tick starts, and the worker does leave,
      after at most the tick that was under way;
    - when [join] has returned, [stop] clears the run handle and
      returns: every worker has left its loop, no step of a worker is
      possible, none happens until [run] is called again, and [run] then
      returns normally. *)
Theorem stop_joins_worker o acts s :
  wf_register o.(_fun_register) →
  o.(_current_thread) = None →
  execs acts (boot o) = Some s →
  (∀ t e, s.(caller) = Idle → s.(proc).(observer).(_current_thread) = Some (t, e) →
     ∃ s1, exec call_stop s = Some s1
           ∧ s1.(caller) = InJoin t (on_observer (modify (set_current_thread None)))
           ∧ s1.(proc).(events) !! e = Some true
           ∧ s1.(proc).(threads) = s.(proc).(threads)
           ∧ s1.(proc).(observer) = s.(proc).(observer))
  ∧ (∀ t resume, s.(caller) = InJoin t resume →
       (∀ a, is_worker_action a = false → a ≠ join_returns → exec a s = None)
       ∧ (is_Some (exec join_returns s)
          ↔ ∃ th, s.(proc).(threads) !! t = Some th ∧ th.(t_pc) = Exited)
       ∧ (∀ t', exec (wait_timeout t') s = None)
       ∧ (∀ m, ∃ ws s',
            ws ∈ [[]; [wait_signalled t]; [loop_update t m; wait_signalled t]]
            ∧ execs ws s = Some s'
            ∧ is_Some (exec join_returns s')))
  ∧ (∀ s', exec join_returns s = Some s' →
       s'.(proc).(observer).(_current_thread) = None
       ∧ s'.(caller) = Idle
       ∧ (∀ t th, s'.(proc).(threads) !! t = Some th → th.(t_pc) = Exited)
       ∧ (∀ a, is_worker_action a = true → exec a s' = None)
       ∧ (∀ acts' s'',
            Forall (fun a => is_call_run a = false) acts' →
            execs acts' s' = Some s'' →
            Forall (fun a => is_worker_action a = false) acts')
       ∧ (∀ period, value (run period s'.(proc)) = Ok tt)).
Proof.
  intros Hwf Hcur0 Hex.
  assert (Hinv : invariant s).
  { eapply invariant_execs; [apply invariant_boot|]; eassumption. }
  split; [|split].
  - intros t e Hc Hcur. eexists. split; [apply (exec_call_stop_running s t e Hc Hcur)|].
    cbn. split; [reflexivity|]. split; [|split; reflexivity].
    destruct (inv_handle s Hinv t e Hcur) as (_ & _ & _ & Hsome).
    apply list_lookup_insert_eq, lookup_lt_is_Some, Hsome.
  - intros t resume Hc. split; [|split; [|split]].
    + intros a. apply (blocked_in_join s t resume a Hc).
    + destruct s as [p c]. cbn in Hc. subst c. apply join_returns_iff.
    + intros t'. apply (no_timeout_in_join s t resume t' Hinv Hc).
    + intros m. apply (join_progress s t resume m Hinv Hc).
  - intros s' Hret.
    assert (Hinv' : invariant s') by (eapply invariant_exec; eauto).
    destruct (exec_join_returns_clears s s' Hinv Hret) as [Hcur' Hc'].
    assert (Hnone : ∀ t, ¬ live (proc s') t).
    { intros t. apply no_handle_no_worker; assumption. }
    split; [exact Hcur'|]. split; [exact Hc'|]. split; [|split; [|split]].
    + intros t th Ht. destruct (decide (t_pc th = Exited)) as [|Hne]; [done|].
      destruct (Hnone t). exists th. done.
    + intros a Hw. destruct (exec a s') as [s''|] eqn:Hexa; [|reflexivity].
      destruct (worker_action_live a s' s'' Hw Hexa) as [t Ht].
      destruct (Hnone t Ht).
    + intros acts' s'' Hall Hexs.
      apply (no_worker_steps acts' s' s'' Hinv' Hnone Hall Hexs).
    + intros period. rewrite (run_idle _ period Hcur'). reflexivity.
Qed.

Lemma stop_joins_witness :
  (after [call_run 1%Q; wait_timeout 0; call_stop; loop_update 0 sample_match;
          wait_signalled 0; join_returns] sample_machine)
    .(proc).(observer).(_current_thread) = None.
Proof.
  refine (proj1 (proj2 (proj2 (stop_joins_worker (sample_observer 6 (1 # 2) None)
            [call_run 1%Q; wait_timeout 0; call_stop; loop_update 0 sample_match;
             wait_signalled 0]
            (after [call_run 1%Q; wait_timeout 0; call_stop;
                    loop_update 0 sample_match; wait_signalled 0] sample_machine)
            _ _ _)) _ _)).
  - apply wf_sample.
  - reflexivity.
  - vm_compute. reflexivity.
  - vm_compute. reflexivity.
Defined.

(** ** Further instances at the sample inputs *)

Lemma check_similarity_witness :
  ∃ location sim,
    value (check {| min_val := -3; min_loc := (3, 4) |}
             (sample_observer 6 (1 # 2) None)) = Ok (location, sim)
    ∧ (sim == 1)%Q.
Proof.
  destruct (check_similarity_in_unit_interval (sample_observer 6 (1 # 2) None)
              {| min_val := -3; min_loc := (3, 4) |})
    as (tr & location & sim & Heq & _ & Hneg & _).
  exists location, sim. split.
  - rewrite Heq. reflexivity.
  - apply Hneg; cbn; [reflexivity | discriminate].
Defined.

Example init_one_channel_raises :
  __init__ (sample_channels 1) (1 # 2) None = Raise InvalidDimension.
Proof. reflexivity. Qed.

Example init_four_channels_weight :
  ∃ o, __init__ (sample_rgba 255) (1 # 2) None = Ok o ∧ (o.(_sq_alpha) == 4)%Q.
Proof. eexists. split; reflexivity. Qed.

Example init_template_one_channel_raises :
  __init__template exact (of_ndarray (sample_channels 1)) = Raise InvalidDimension.
Proof. reflexivity. Qed.

(** Two frames of 2 x 2 opaque pixels: a mask of eight items, each 1. *)
Example init_template_frames_weight :
  ∃ color mask w,
    __init__template exact (sample_frames 255) = Ok (color, Some mask, w)
    ∧ a_shape mask = [2%nat; 2%nat; 1%nat; 2%nat]
    ∧ (w == 8)%Q.
Proof. eexists _, _, _. split; [reflexivity|]. split; reflexivity. Qed.


Lemma unregister_witness :
  unregister 9%nat ON_FOUND (sample_observer 6 (1 # 2) None)
  = mkOutcome [] (sample_observer 6 (1 # 2) None) (Raise ValueError).
Proof.
  refine (proj1 (proj2 (proj2 (unregister_removes_one_occurrence
            (sample_observer 6 (1 # 2) None) 9%nat ON_FOUND)))
            [1%nat; 2%nat] _ _ _).
  - apply FOUND_in_TRIGGERS.
  - reflexivity.
  - repeat (apply not_elem_of_cons; split; [discriminate|]). apply not_elem_of_nil.
Defined.

(** ** The weight of a constructed template *)

Lemma sum_nonneg (l : list Q) :
  Forall (fun x => 0 <= x)%Q l → (0 <= foldr Qplus 0 l)%Q.
Proof.
  induction 1 as [|x l Hx _ IH]; cbn [foldr]; [discriminate|].
  lra.
Qed.

Lemma items_Forall (P : Q -> Prop) a :
  (∀ i j k, P (item a i j k)) → Forall P (items a).
Proof.
  intros H. unfold items.
  apply Forall_bind, Forall_forall. intros i _.
  apply Forall_bind, Forall_forall. intros j _.
  apply Forall_bind, Forall_forall. intros k _.
  constructor; [apply H | constructor].
Qed.

(** [__init__] leaves a weight that is zero (the degenerate template,
    which [check] answers without a match) or positive (the case in
    which [check] divides by it). *)
Lemma init_sq_alpha_nonneg template threshold bbox o :
  __init__ template threshold bbox = Ok o → (0 <= o.(_sq_alpha))%Q.
Proof.
  unfold __init__. destruct (decide (depth template = 4%nat)).
  - destruct (np_split_last template) as [color a]. intros [= <-]. cbn.
    apply sum_nonneg, items_Forall. intros i j k.
    cbn [item np_square np_map].
    apply Qmult_le_0_compat; apply np_clip_bounds.
  - destruct (decide (depth template = 3%nat)); [|discriminate].
    intros [= <-]. cbn. unfold Qle. cbn. lia.
Qed.

(** * Further properties of the code *)

(** ** Registering *)

(** What [_trigger] does on an Observer depends on the sequence of the
    kind only. *)
Lemma trigger_same_lookup o1 o2 t loc :
  o1.(_fun_register) !! t = o2.(_fun_register) !! t →
  trace (_trigger t loc o1) = trace (_trigger t loc o2)
  ∧ value (_trigger t loc o1) = value (_trigger t loc o2).
Proof.
  intros Heq. unfold _trigger.
  rewrite !(bind_ok (emit (Trigger t loc)) _ _ [Trigger t loc] _ tt eq_refl).
  cbn [trace value]. unfold getitem, bind, get. cbn [value final trace].
  rewrite Heq. destruct (_fun_register o2 !! t) as [funs|]; cbn [value final trace ret].
  - change (fun (f : Callback) => emit (Call f loc))
      with (fun f : Callback => emit (S:=Observer) (Call f loc)).
    rewrite !for_each_emit. split; reflexivity.
  - split; reflexivity.
Qed.

(** X1. [register(fn, trigger)] for one of the three kinds returns
    normally without an effect; afterwards the kind calls the listeners
    it called before, in the same order, and then [fn], and every other
    kind does what it did.  For any other trigger it raises
    "Unknown trigger" and changes nothing. *)
Theorem register_appends_listener o fn trigger :
  wf_register o.(_fun_register) →
  (trigger ∈ TRIGGERS →
     let r := register fn trigger o in
     value r = Ok tt
     ∧ trace r = []
     ∧ final r
       = set_fun_register
           (<[trigger := default [] (o.(_fun_register) !! trigger) ++ [fn]]>
              o.(_fun_register)) o
     ∧ (∀ loc, calls (trace (_trigger trigger loc (final r)))
               = calls (trace (_trigger trigger loc o)) ++ [(fn, loc)])
     ∧ (∀ other loc, other ≠ trigger →
          trace (_trigger other loc (final r)) = trace (_trigger other loc o)))
  ∧ (trigger ∉ TRIGGERS →
       register fn trigger o = mkOutcome [] o (Raise (UnknownTrigger trigger))).
Proof.
  intros Hwf. split.
  - intros Hin r. subst r. destruct (Hwf trigger Hin) as [funs Hreg].
    rewrite (register_eq o fn trigger funs Hin Hreg), Hreg. cbn [value trace final default].
    split; [reflexivity|]. split; [reflexivity|]. split; [reflexivity|]. split.
    + intros loc. rewrite (trigger_calls o trigger loc funs Hreg).
      rewrite (trigger_calls _ trigger loc (funs ++ [fn]));
        [rewrite fmap_app; reflexivity|].
      cbn. apply lookup_insert_eq.
    + intros other loc Hne. apply trigger_same_lookup.
      cbn. apply lookup_insert_ne. congruence.
  - intros Hnot. apply unknown_trigger_eq, Hnot.
Qed.

Lemma register_appends_witness :
  calls (trace (_trigger ON_FOUND (3, 4)
                  (final (register 7%nat ON_FOUND (sample_observer 6 (1 # 2) None)))))
  = calls (trace (_trigger ON_FOUND (3, 4) (sample_observer 6 (1 # 2) None)))
    ++ [(7%nat, (3, 4))].
Proof.
  refine (proj1 (proj2 (proj2 (proj2 (proj1 (register_appends_listener
            (sample_observer 6 (1 # 2) None) 7%nat ON_FOUND _) _)))) (3, 4)).
  - apply wf_sample.
  - apply FOUND_in_TRIGGERS.
Defined.

Lemma registers_eq fns o trigger funs :
  trigger ∈ TRIGGERS →
  o.(_fun_register) !! trigger = Some funs →
  registers fns trigger o
  = mkOutcome []
      (match fns with
       | [] => o
       | _ => set_fun_register (<[trigger := funs ++ fns]> o.(_fun_register)) o
       end)
      (Ok tt).
Proof.
  intros Hin. revert o funs. induction fns as [|fn fns IH]; intros o funs Hreg.
  - reflexivity.
  - unfold registers. cbn [for_each].
    rewrite (bind_ok _ _ _ _ _ _ (register_eq o fn trigger funs Hin Hreg)).
    fold (registers fns trigger).
    rewrite (IH _ (funs ++ [fn])) by (cbn; apply lookup_insert_eq).
    cbn [trace final value app]. destruct fns as [|fn' fns].
    + reflexivity.
    + cbn [_fun_register set_fun_register]. rewrite insert_insert_eq, <- app_assoc.
      reflexivity.
Qed.

(** X2. On an Observer as [__init__] built it, registering the
    listeners [fns] one after the other under one of the three kinds
    never raises, and the kind then calls exactly these listeners, in
    the order of their registration, one call for each registration (a
    listener registered twice is called twice); the other two kinds
    call nobody. *)
Theorem registrations_fire_in_order template threshold bbox o fns trigger :
  __init__ template threshold bbox = Ok o →
  trigger ∈ TRIGGERS →
  let r := registers fns trigger o in
  value r = Ok tt
  ∧ (∀ loc, calls (trace (_trigger trigger loc (final r)))
            = (fun f => (f, loc)) <$> fns)
  ∧ (∀ other loc, other ∈ TRIGGERS → other ≠ trigger →
       calls (trace (_trigger other loc (final r))) = []).
Proof.
  intros Hinit Hin r. subst r.
  destruct (init_state _ _ _ _ Hinit) as (_ & Hreg & Hwf & _).
  assert (Hempty : ∀ t, t ∈ TRIGGERS → _fun_register o !! t = Some []).
  { intros t Ht. rewrite Hreg. unfold TRIGGERS in Ht.
    repeat (apply elem_of_cons in Ht as [->|Ht]); [| | |by apply elem_of_nil in Ht];
      reflexivity. }
  rewrite (registers_eq fns o trigger [] Hin (Hempty trigger Hin)).
  cbn [value final]. split; [reflexivity|]. split.
  - intros loc. destruct fns as [|fn fns].
    + rewrite (trigger_calls o trigger loc [] (Hempty trigger Hin)). reflexivity.
    + apply trigger_calls. cbn. apply lookup_insert_eq.
  - intros other loc Hother Hne.
    rewrite (trigger_calls _ other loc []); [reflexivity|].
    destruct fns as [|fn fns]; [apply Hempty, Hother|].
    cbn. rewrite lookup_insert_ne by congruence. apply Hempty, Hother.
Qed.

Lemma registrations_witness :
  calls (trace (_trigger ON_MOVE (3, 4)
                  (final (registers [4%nat; 5%nat; 4%nat] ON_MOVE
                            (mkObserver sample_rgb None
                               (inject_Z (Z.of_nat (rows sample_rgb * cols sample_rgb)))
                               (1 # 2) None None empty_register None)))))
  = (fun f => (f, (3, 4))) <$> [4%nat; 5%nat; 4%nat].
Proof.
  refine (proj1 (proj2 (registrations_fire_in_order sample_rgb (1 # 2) None _
                          [4%nat; 5%nat; 4%nat] ON_MOVE _ _)) (3, 4)).
  - reflexivity.
  - apply MOVE_in_TRIGGERS.
Defined.

(** ** Unregistering *)

Lemma for_each_app {S A} (xs ys : list A) (body : A -> Py S unit) s :
  for_each (xs ++ ys) body s
  = bind (for_each xs body) (fun _ => for_each ys body) s.
Proof.
  revert s. induction xs as [|x xs IH]; intros s.
  - cbn [app for_each]. unfold bind, ret. cbn. destruct (for_each ys body s).
    reflexivity.
  - cbn [app for_each]. unfold bind.
    destruct (body x s) as [tr1 s1 [[]|e]]; cbn [trace final value]; [|reflexivity].
    rewrite IH. unfold bind.
    destruct (for_each xs body s1) as [tr2 s2 [[]|e]]; cbn [trace final value];
      rewrite ?app_assoc; reflexivity.
Qed.

Lemma list_remove_filter fn funs funs' :
  list_remove fn funs = Some funs' →
  count_occ Nat.eq_dec funs fn = S (count_occ Nat.eq_dec funs' fn)
  ∧ filter (fun g => g ≠ fn) funs' = filter (fun g => g ≠ fn) funs
  ∧ funs ≡ₚ fn :: funs'.
Proof.
  revert funs'. induction funs as [|g funs IH]; intros funs'; cbn [list_remove].
  - discriminate.
  - destruct (decide (g = fn)) as [->|Hne].
    + intros [= <-]. cbn [count_occ]. destruct (Nat.eq_dec fn fn); [|done].
      split; [reflexivity|]. split; [|reflexivity].
      rewrite filter_cons_False by (intros H; apply H; reflexivity). reflexivity.
    + destruct (list_remove fn funs) as [rest|]; [|discriminate].
      intros [= <-]. destruct (IH rest eq_refl) as (Hc & Hf & Hp).
      cbn [count_occ]. destruct (Nat.eq_dec g fn); [done|].
      split; [exact Hc|]. split.
      * rewrite !filter_cons_True by exact Hne. f_equal. exact Hf.
      * rewrite Hp. apply Permutation_swap.
Qed.

Lemma filter_absent (fn : Callback) (funs : list Callback) :
  fn ∉ funs → filter (fun g => g ≠ fn) funs = funs.
Proof.
  induction funs as [|g funs IH]; intros Hnot; [reflexivity|].
  apply not_elem_of_cons in Hnot as [Hne Hnot].
  rewrite filter_cons_True by congruence. f_equal. apply IH, Hnot.
Qed.

Lemma count_zero_absent (fn : Callback) (funs : list Callback) :
  count_occ Nat.eq_dec funs fn = 0%nat → fn ∉ funs.
Proof. intros H Hin. apply list_elem_of_In in Hin. eapply count_occ_not_In; eauto. Qed.

Lemma unregisters_eq n : ∀ o fn trigger funs,
  trigger ∈ TRIGGERS →
  o.(_fun_register) !! trigger = Some funs →
  count_occ Nat.eq_dec funs fn = n →
  unregisters n fn trigger o
  = mkOutcome []
      (set_fun_register
         (<[trigger := filter (fun g => g ≠ fn) funs]> o.(_fun_register)) o)
      (Ok tt).
Proof.
  induction n as [|n IH]; intros o fn trigger funs Hin Hreg Hcount.
  - unfold unregisters. cbn [replicate for_each ret].
    rewrite filter_absent by (apply count_zero_absent, Hcount).
    rewrite (insert_id _ _ _ Hreg), set_fun_register_same. reflexivity.
  - unfold unregisters. cbn [replicate for_each].
    destruct (list_remove fn funs) as [funs'|] eqn:Hrem.
    + destruct (list_remove_filter fn funs funs' Hrem) as (Hc & Hf & _).
      pose proof (unregister_eq o fn trigger funs Hin Hreg) as Hun.
      rewrite Hrem in Hun. rewrite (bind_ok _ _ _ _ _ _ Hun).
      fold (unregisters n fn trigger).
      rewrite (IH _ fn trigger funs' Hin); [|cbn; apply lookup_insert_eq|lia].
      cbn [trace final value app _fun_register set_fun_register].
      rewrite insert_insert_eq. unfold Callback in *. rewrite Hf. reflexivity.
    + exfalso. destruct (decide (fn ∈ funs)) as [Hel|Hnot].
      * apply list_elem_of_split_l in Hel as (before & after & -> & Hb).
        pose proof (list_remove_first fn before after Hb) as Hfirst.
        unfold Callback in *. congruence.
      * apply Hnot, list_elem_of_In, (count_occ_In Nat.eq_dec). lia.
Qed.

(** X3. When a listener stands [n] times in the sequence of a kind,
    [n] calls of [unregister] for it return normally and leave the
    sequence without it, the other listeners in their order; the kind no
    longer calls it, and one more [unregister] raises the [ValueError]
    of [list.remove]. *)
Theorem unregister_as_often_as_registered o fn trigger funs :
  trigger ∈ TRIGGERS →
  o.(_fun_register) !! trigger = Some funs →
  let n := count_occ Nat.eq_dec funs fn in
  let r := unregisters n fn trigger o in
  value r = Ok tt
  ∧ (final r).(_fun_register) !! trigger = Some (filter (fun g => g ≠ fn) funs)
  ∧ (∀ loc, (fn, loc) ∉ calls (trace (_trigger trigger loc (final r))))
  ∧ value (unregister fn trigger (final r)) = Raise ValueError
  ∧ value (unregisters (S n) fn trigger o) = Raise ValueError.
Proof.
  intros Hin Hreg n r.
  assert (Hr : r = mkOutcome []
                 (set_fun_register
                    (<[trigger := filter (fun g => g ≠ fn) funs]> o.(_fun_register)) o)
                 (Ok tt)).
  { apply (unregisters_eq n o fn trigger funs Hin Hreg eq_refl). }
  assert (Hlook : (final r).(_fun_register) !! trigger
                  = Some (filter (fun g => g ≠ fn) funs)).
  { rewrite Hr. cbn. apply lookup_insert_eq. }
  assert (Hgone : fn ∉ filter (fun g => g ≠ fn) funs).
  { intros Hel. apply list_elem_of_filter in Hel as [Hne _]. apply Hne. reflexivity. }
  assert (Hlast : unregister fn trigger (final r)
                  = mkOutcome [] (final r) (Raise ValueError)).
  { rewrite (unregister_eq _ fn trigger _ Hin Hlook).
    rewrite (list_remove_absent _ _ Hgone). reflexivity. }
  split; [rewrite Hr; reflexivity|]. split; [exact Hlook|]. split; [|split].
  - intros loc. rewrite (trigger_calls _ trigger loc _ Hlook).
    intros Hel. apply list_elem_of_fmap in Hel as (g & [= <-] & Hg). done.
  - rewrite Hlast. reflexivity.
  - pose proof Hr as Hr'. unfold r in Hr'.
    rewrite Hr in Hlast. cbn [final] in Hlast.
    unfold unregisters in *. rewrite replicate_S_end, for_each_app.
    rewrite (bind_ok _ _ _ _ _ _ Hr'). cbn [value for_each].
    unfold bind. rewrite Hlast. reflexivity.
Qed.

Lemma unregister_as_often_witness :
  value (unregisters 3 4%nat ON_MOVE
           (final (registers [4%nat; 5%nat; 4%nat] ON_MOVE
                     (sample_observer 6 (1 # 2) None))))
  = Raise ValueError.
Proof.
  refine (proj2 (proj2 (proj2 (proj2 (unregister_as_often_as_registered
            (final (registers [4%nat; 5%nat; 4%nat] ON_MOVE
                      (sample_observer 6 (1 # 2) None)))
            4%nat ON_MOVE [4%nat; 5%nat; 4%nat] _ _))))).
  - apply MOVE_in_TRIGGERS.
  - reflexivity.
Defined.

(** X4. [register(fn, trigger)] followed by [unregister(fn, trigger)],
    for one of the three kinds, changes the sequence of the kind by a
    permutation at most: the same listeners are called as often as
    before, whatever their order.  When [fn] was registered under the
    kind already, the two calls in the other order, [unregister] then
    [register], have the same outcome. *)
Theorem register_unregister_permutes o fn trigger funs :
  trigger ∈ TRIGGERS →
  o.(_fun_register) !! trigger = Some funs →
  let r := bind (register fn trigger) (fun _ => unregister fn trigger) o in
  (∃ funs', r = mkOutcome []
                  (set_fun_register (<[trigger := funs']> o.(_fun_register)) o) (Ok tt)
            ∧ funs' ≡ₚ funs)
  ∧ (fn ∈ funs →
       bind (unregister fn trigger) (fun _ => register fn trigger) o = r).
Proof.
  intros Hin Hreg r. subst r.
  rewrite (register_unregister_eq o fn trigger funs Hin Hreg).
  destruct (list_remove fn funs) as [funs1|] eqn:Hrem.
  - destruct (list_remove_filter fn funs funs1 Hrem) as (_ & _ & Hperm).
    split.
    + exists (funs1 ++ [fn]). split; [reflexivity|].
      rewrite Hperm. symmetry. apply Permutation_cons_append.
    + intros _.
      pose proof (unregister_eq o fn trigger funs Hin Hreg) as Hun.
      rewrite Hrem in Hun. rewrite (bind_ok _ _ _ _ _ _ Hun).
      rewrite (register_eq _ fn trigger funs1 Hin) by (cbn; apply lookup_insert_eq).
      cbn [trace final value app _fun_register set_fun_register].
      rewrite insert_insert_eq. reflexivity.
  - split.
    + exists funs. split; reflexivity.
    + intros Hel. exfalso.
      apply list_elem_of_split_l in Hel as (before & after & -> & Hb).
      pose proof (list_remove_first fn before after Hb) as Hfirst.
      unfold Callback in *. congruence.
Qed.

Lemma register_unregister_permutes_witness :
  bind (unregister 1%nat ON_FOUND) (fun _ => register 1%nat ON_FOUND)
    (sample_observer 6 (1 # 2) None)
  = bind (register 1%nat ON_FOUND) (fun _ => unregister 1%nat ON_FOUND)
      (sample_observer 6 (1 # 2) None).
Proof.
  refine (proj2 (register_unregister_permutes (sample_observer 6 (1 # 2) None)
                   1%nat ON_FOUND [1%nat; 2%nat] _ _) _).
  - apply FOUND_in_TRIGGERS.
  - reflexivity.
  - apply elem_of_cons. left. reflexivity.
Defined.

(** ** The events of a run of ticks *)

Lemma replay_app held evs1 evs2 :
  replay held (evs1 ++ evs2) = replay held evs1 ≫= fun h => replay h evs2.
Proof.
  revert held. induction evs1 as [|[kind loc] evs1 IH]; intros held; [reflexivity|].
  cbn [app replay]. destruct held as [last|].
  - destruct (decide (kind = ON_MOVE ∧ loc ≠ last)); [apply IH|].
    destruct (decide (kind = ON_LOST ∧ loc = last)); [apply IH|reflexivity].
  - destruct (decide (kind = ON_FOUND)); [apply IH|reflexivity].
Qed.

(** One tick returns, changes the last found location only, and fires
    what a listener holding the last found location expects. *)
Lemma update_replay o m :
  wf_register o.(_fun_register) →
  ∃ tr next,
    update m o = mkOutcome tr (set_lastFound next o) (Ok tt)
    ∧ replay o.(_lastFound) (fired tr) = Some next.
Proof.
  intros Hwf. destruct (check_returns o m) as (tr & loc & sim & Heq & Hf & _).
  rewrite (update_eq o m tr loc sim Hwf Heq). cbn zeta.
  destruct (Qle_bool (_threshold o) sim).
  - destruct (_lastFound o) as [last|] eqn:Hlast.
    + destruct (decide (loc ≠ last)) as [Hne|Heq'].
      * eexists _, _. split; [reflexivity|].
        rewrite fired_app, Hf, fired_dispatch. cbn [app replay].
        rewrite decide_True by (split; [reflexivity|exact Hne]). reflexivity.
      * eexists _, _. split; [reflexivity|]. rewrite Hf.
        apply dec_stable in Heq'. subst last. reflexivity.
    + eexists _, _. split; [reflexivity|].
      rewrite fired_app, Hf, fired_dispatch. cbn [app replay].
      rewrite decide_True by reflexivity. reflexivity.
  - destruct (_lastFound o) as [last|] eqn:Hlast.
    + eexists _, _. split; [reflexivity|].
      rewrite fired_app, Hf, fired_dispatch. cbn [app replay].
      rewrite decide_False by (intros [H _]; discriminate H).
      rewrite decide_True by (split; reflexivity). reflexivity.
    + exists tr, None. split.
      * rewrite <- Hlast, set_lastFound_same. reflexivity.
      * rewrite Hf. reflexivity.
Qed.

(** X5. Any run of ticks, whatever the collaborators answer, returns
    normally and changes nothing of the Observer but its last found
    location; and the events it fires are consistent: a listener that
    starts from the last found location and follows FOUND, MOVED and
    LOST as they come never meets an event it does not expect (no FOUND
    while found, no MOVED or LOST while lost, no MOVED to the place it
    holds, no LOST of another place) and ends with the last found
    location of the Observer. *)
Theorem ticks_events_replay ms : ∀ o,
  wf_register o.(_fun_register) →
  let r := ticks ms o in
  value r = Ok tt
  ∧ final r = set_lastFound (final r).(_lastFound) o
  ∧ replay o.(_lastFound) (fired (trace r)) = Some (final r).(_lastFound).
Proof.
  induction ms as [|m ms IH]; intros o Hwf r; subst r.
  - cbn. split; [reflexivity|]. split; [|reflexivity].
    symmetry. apply set_lastFound_same.
  - destruct (update_replay o m Hwf) as (tr & next & Hup & Hrep).
    rewrite ticks_cons, (bind_ok _ _ _ _ _ _ Hup).
    destruct (IH (set_lastFound next o) Hwf) as (Hval & Hfin & Hrest).
    cbn [value final trace]. split; [exact Hval|]. split.
    + rewrite Hfin at 1. reflexivity.
    + rewrite fired_app, replay_app, Hrep. exact Hrest.
Qed.

Lemma ticks_events_witness :
  replay None
    (fired (trace (ticks [sample_match; {| min_val := 5; min_loc := (8, 4) |};
                          {| min_val := 1000000; min_loc := (0, 0) |}; sample_match]
                     (sample_observer 6 (1 # 2) None))))
  = Some (final (ticks [sample_match; {| min_val := 5; min_loc := (8, 4) |};
                        {| min_val := 1000000; min_loc := (0, 0) |}; sample_match]
                   (sample_observer 6 (1 # 2) None))).(_lastFound).
Proof.
  refine (proj2 (proj2 (ticks_events_replay _ (sample_observer 6 (1 # 2) None) _))).
  apply wf_sample.
Defined.

Example ticks_events_sample :
  fired (trace (ticks [sample_match; {| min_val := 5; min_loc := (8, 4) |};
                       {| min_val := 1000000; min_loc := (0, 0) |}; sample_match]
                  (sample_observer 6 (1 # 2) None)))
  = [(ON_FOUND, (3, 4)); (ON_MOVE, (8, 4)); (ON_LOST, (8, 4)); (ON_FOUND, (3, 4))].
Proof. vm_compute. reflexivity. Qed.

(** ** The similarity *)

Lemma np_clip_monotone x y : (x <= y)%Q → (np_clip x 0 1 <= np_clip y 0 1)%Q.
Proof.
  intros Hxy. unfold np_clip.
  apply Q.min_le_compat_l, Q.max_le_compat_r, Hxy.
Qed.

(** X6. For an Observer whose weight is not negative (as [__init__]
    leaves it), [check] answers a raw distance that is larger with a
    similarity that is not larger: so when a match counts as found (its
    similarity reaches the threshold), every match of a smaller raw
    distance counts as found too. *)
Theorem similarity_antitone o m1 m2 loc1 sim1 loc2 sim2 :
  (0 <= o.(_sq_alpha))%Q →
  value (check m1 o) = Ok (loc1, sim1) →
  value (check m2 o) = Ok (loc2, sim2) →
  (m1.(min_val) <= m2.(min_val))%Q →
  (sim2 <= sim1)%Q
  ∧ (Qle_bool o.(_threshold) sim2 = true → Qle_bool o.(_threshold) sim1 = true).
Proof.
  intros Hpos H1 H2 Hle.
  assert (Hsim : (sim2 <= sim1)%Q).
  { destruct (Qeq_bool (_sq_alpha o) 0) eqn:Hz.
    - rewrite check_degenerate in H1, H2 by exact Hz. cbn in H1, H2.
      injection H1 as _ <-. injection H2 as _ <-. apply Qle_refl.
    - rewrite check_regular in H1, H2 by exact Hz. cbn [value] in H1, H2.
      injection H1 as _ <-. injection H2 as _ <-.
      assert (Hsq : (0 < _sq_alpha o)%Q).
      { apply Qeq_bool_neq in Hz. apply Qle_lteq in Hpos as [Hlt|Heq]; [exact Hlt|].
        exfalso. apply Hz. symmetry. exact Heq. }
      apply np_clip_monotone.
      assert (Hd : (min_val m1 / MAX_DIFF / _sq_alpha o
                    <= min_val m2 / MAX_DIFF / _sq_alpha o)%Q).
      { unfold Qdiv. apply Qmult_le_compat_r.
        - apply Qmult_le_compat_r; [exact Hle | discriminate].
        - apply Qlt_le_weak, Qinv_lt_0_compat, Hsq. }
      lra. }
  split; [exact Hsim|].
  intros Hthr. apply Qle_bool_iff. apply Qle_bool_iff in Hthr.
  eapply Qle_trans; eassumption.
Qed.

Lemma similarity_antitone_witness :
  (np_clip (1 - 9 / MAX_DIFF / 6) 0 1 <= np_clip (1 - 5 / MAX_DIFF / 6) 0 1)%Q.
Proof.
  refine (proj1 (similarity_antitone (sample_observer 6 (1 # 2) None)
                   sample_match {| min_val := 9; min_loc := (0, 0) |}
                   (3, 4) _ (0, 0) _ _ _ _ _)).
  - discriminate.
  - reflexivity.
  - reflexivity.
  - discriminate.
Defined.

(** ** The weight of a template, continued *)

Lemma sum_zero_iff (l : list Q) :
  Forall (fun x => 0 <= x)%Q l →
  (foldr Qplus 0 l == 0)%Q ↔ Forall (fun x => x == 0)%Q l.
Proof.
  induction 1 as [|x l Hx Hl IH]; cbn [foldr].
  - split; [constructor | reflexivity].
  - pose proof (sum_nonneg l Hl) as Hsum. split.
    + intros Hz. constructor; [lra|]. apply IH. lra.
    + intros Hall. apply Forall_cons in Hall as [Hx0 Hall].
      apply IH in Hall. lra.
Qed.

(** The items of an array are its entries at the indices within its shape. *)
Lemma items_Forall_iff (P : Q -> Prop) a :
  Forall P (items a)
  ↔ ∀ i j k, (i < rows a)%nat → (j < cols a)%nat → (k < depth a)%nat →
             P (item a i j k).
Proof.
  unfold items. rewrite Forall_forall. split.
  - intros H i j k Hi Hj Hk. apply H.
    apply list_elem_of_bind. exists i. split; [|apply elem_of_seq; lia].
    apply list_elem_of_bind. exists j. split; [|apply elem_of_seq; lia].
    apply list_elem_of_bind. exists k. split; [|apply elem_of_seq; lia].
    apply list_elem_of_singleton. reflexivity.
  - intros H x Hx.
    apply list_elem_of_bind in Hx as (i & Hx & Hi).
    apply list_elem_of_bind in Hx as (j & Hx & Hj).
    apply list_elem_of_bind in Hx as (k & Hx & Hk).
    apply list_elem_of_singleton in Hx as ->.
    apply elem_of_seq in Hi, Hj, Hk. apply H; lia.
Qed.

Lemma np_clip_zero_iff y : (np_clip y 0 1 == 0)%Q ↔ (y <= 0)%Q.
Proof.
  unfold np_clip.
  destruct (Q.max_spec y 0) as [[H1 E1]|[H1 E1]];
    destruct (Q.min_spec 1 (Qmax y 0)) as [[H2 E2]|[H2 E2]];
    rewrite E2; rewrite ?E1 in *; split; intros; lra.
Qed.

(** When the weight that [__init__] computes from an alpha plane is
    zero. *)
Lemma mask_weight (a : ndarray) :
  depth a = 1%nat →
  let w := np_sum (np_square (np_map (fun x => np_clip (x * (1 / 255)) 0 1)%Q a)) in
  (w == 0)%Q
  ↔ ∀ i j, (i < rows a)%nat → (j < cols a)%nat → (item a i j 0%nat <= 0)%Q.
Proof.
  intros Hd w.
  set (mask := np_map (fun x => np_clip (x * (1 / 255)) 0 1)%Q a) in *.
  assert (Hnonneg : Forall (fun x => 0 <= x)%Q (items (np_square mask))).
  { apply items_Forall. intros i j k. cbn [item np_square np_map].
    apply Qmult_le_0_compat; apply np_clip_bounds. }
  unfold w, np_sum. rewrite (sum_zero_iff _ Hnonneg), items_Forall_iff. split.
  - intros H i j Hi Hj.
    assert (Hk : (0 < depth (np_square mask))%nat)
      by (unfold depth in *; cbn; lia).
    specialize (H i j 0%nat Hi Hj Hk). cbn [item np_square np_map mask] in H.
    apply Qmult_integral in H.
    assert (Hz : (np_clip (item a i j 0%nat * (1 / 255)) 0 1 == 0)%Q) by tauto.
    apply np_clip_zero_iff in Hz.
    assert (E : (item a i j 0%nat * (1 / 255) == item a i j 0%nat * (1 # 255))%Q)
      by reflexivity.
    rewrite E in Hz. lra.
  - intros H i j k Hi Hj Hk.
    assert (k = 0%nat) as -> by (unfold depth in *; cbn in Hk; lia).
    cbn [item np_square np_map mask].
    assert (Hz : (np_clip (item a i j 0%nat * (1 / 255)) 0 1 == 0)%Q).
    { apply np_clip_zero_iff. specialize (H i j Hi Hj).
      assert (E : (item a i j 0%nat * (1 / 255) == item a i j 0%nat * (1 # 255))%Q)
        by reflexivity.
      rewrite E. lra. }
    rewrite Hz. reflexivity.
Qed.

(** X8. When the weight of a constructed Observer is zero, so that
    [check] answers without a match: for a template of four channels,
    exactly when the alpha of every pixel is 0 or less (in particular
    when it has no pixel); for a template of three channels, exactly
    when it has no pixel. *)
Theorem init_degenerate_iff template threshold bbox o :
  __init__ template threshold bbox = Ok o →
  (depth template = 4%nat →
     (o.(_sq_alpha) == 0)%Q
     ↔ ∀ i j, (i < rows template)%nat → (j < cols template)%nat →
              (item template i j 3%nat <= 0)%Q)
  ∧ (depth template = 3%nat →
       (o.(_sq_alpha) == 0)%Q ↔ rows template = 0%nat ∨ cols template = 0%nat).
Proof.
  intros Hinit. unfold __init__ in Hinit.
  destruct (decide (depth template = 4%nat)) as [H4|H4].
  - unfold np_split_last in Hinit. rewrite H4 in Hinit. cbn [Nat.sub] in Hinit.
    injection Hinit as <-. cbn [_sq_alpha].
    set (a := {| shape := (rows template, cols template, 1%nat);
                 item := fun i j k => item template i j (k + 3)%nat |}).
    pose proof (mask_weight a eq_refl) as Hz.
    split; [intros _; exact Hz | intros H3; congruence].
  - destruct (decide (depth template = 3%nat)) as [H3|H3]; [|discriminate].
    injection Hinit as <-. cbn [_sq_alpha]. split; [intros H; contradiction|].
    intros _. unfold Qeq. cbn. split; intros H; nia.
Qed.

Lemma init_degenerate_witness :
  ∃ o, __init__ (sample_rgba 0) (1 # 2) None = Ok o ∧ (o.(_sq_alpha) == 0)%Q.
Proof.
  eexists. split; [reflexivity|].
  refine (proj2 (proj1 (init_degenerate_iff (sample_rgba 0) (1 # 2) None _ _) _) _).
  - reflexivity.
  - reflexivity.
  - intros i j _ _. cbn. discriminate.
Defined.

(** ** The registry of a process *)

(** What a step does to the registry: nothing, or a new sequence for
    one of the three kinds. *)
Lemma exec_registry a s s' :
  invariant s → exec a s = Some s' →
  s'.(proc).(observer).(_fun_register) = s.(proc).(observer).(_fun_register)
  ∨ ∃ t funs, t ∈ TRIGGERS
      ∧ s'.(proc).(observer).(_fun_register)
        = <[t := funs]> s.(proc).(observer).(_fun_register).
Proof.
  intros Hinv. destruct s as [s c]. unfold exec. cbn [caller proc].
  pose proof (inv_register _ Hinv) as Hwf. cbn in Hwf.
  destruct a as [p| | |fn trigger|fn trigger|m|t|t|t m].
  - destruct c; [|discriminate]. intros [= <-]. left. cbn [proc].
    destruct (_current_thread (observer s)) as [h|] eqn:Hcur.
    + reflexivity.
    + reflexivity.
  - destruct c; [|discriminate]. unfold stop.
    destruct (_current_thread (observer s)) as [[t e]|]; intros [= <-]; left;
      reflexivity.
  - destruct c as [|t resume]; [discriminate|].
    destruct (inv_join _ Hinv t resume eq_refl) as (-> & _).
    destruct (threads s !! t) as [th|]; [|discriminate]. cbn.
    case_decide; [|discriminate]. intros [= <-]. left. reflexivity.
  - destruct c; [|discriminate]. intros [= <-].
    unfold on_observer. cbn [proc final observer set_observer].
    destruct (decide (trigger ∈ TRIGGERS)) as [Hin|Hnot].
    + destruct (Hwf trigger Hin) as [funs Hreg].
      rewrite (register_eq _ fn trigger funs Hin Hreg). right. eauto.
    + rewrite (proj1 (unknown_trigger_eq _ fn trigger Hnot)). left. reflexivity.
  - destruct c; [|discriminate]. intros [= <-].
    unfold on_observer. cbn [proc final observer set_observer].
    destruct (decide (trigger ∈ TRIGGERS)) as [Hin|Hnot].
    + destruct (Hwf trigger Hin) as [funs Hreg].
      rewrite (unregister_eq _ fn trigger funs Hin Hreg).
      destruct (list_remove fn funs); [right; eauto | left; reflexivity].
    + rewrite (proj2 (unknown_trigger_eq _ fn trigger Hnot)). left. reflexivity.
  - destruct c; [|discriminate]. intros [= <-]. left.
    unfold on_observer. cbn [proc final observer set_observer].
    apply (update_preserves _ m Hwf).
  - unfold async_run_wait.
    destruct (threads s !! t) as [th|]; [|discriminate]. cbn.
    destruct (events s !! t_stop_event th); [|discriminate]. cbn.
    repeat (case_decide; [|discriminate]). intros [= <-]. left. reflexivity.
  - unfold async_run_wait.
    destruct (threads s !! t) as [th|]; [|discriminate]. cbn.
    destruct (events s !! t_stop_event th); [|discriminate]. cbn.
    repeat (case_decide; [|discriminate]). intros [= <-]. left. reflexivity.
  - unfold async_run_update.
    destruct (threads s !! t) as [th|]; [|discriminate]. cbn.
    case_decide; [|discriminate]. intros [= <-]. left.
    unfold on_observer, set_pc. cbn [proc final observer set_observer].
    apply (update_preserves _ m Hwf).
Qed.

Lemma empty_register_keys t : is_Some (empty_register !! t) ↔ t ∈ TRIGGERS.
Proof.
  split.
  - intros [funs Hf]. unfold empty_register in Hf.
    apply elem_of_list_to_map_2 in Hf.
    apply list_elem_of_fmap in Hf as (t' & [= -> _] & Ht'). exact Ht'.
  - apply wf_empty_register.
Qed.

(** X9. However the Observer that [__init__] built is used afterwards
    (calls of [register], [unregister], [update], [run] and [stop], a
    worker ticking in between), its registry holds a sequence for each
    of the three kinds and for nothing else: firing one of the three
    kinds never fails for a missing key, a tick never raises, and
    [register] raises for the unknown triggers only. *)
Theorem registry_keeps_the_three_kinds template threshold bbox o acts s :
  __init__ template threshold bbox = Ok o →
  execs acts (boot o) = Some s →
  let self := s.(proc).(observer) in
  (∀ t, is_Some (self.(_fun_register) !! t) ↔ t ∈ TRIGGERS)
  ∧ (∀ t loc, t ∈ TRIGGERS → value (_trigger t loc self) = Ok tt)
  ∧ (∀ m, value (update m self) = Ok tt)
  ∧ (∀ fn t, value (register fn t self) = Ok tt ↔ t ∈ TRIGGERS).
Proof.
  intros Hinit Hex self. subst self.
  destruct (init_state _ _ _ _ Hinit) as (_ & Hreg & Hwf0 & Hcur0 & _).
  assert (Hboth : invariant s
                  ∧ ∀ t, is_Some (s.(proc).(observer).(_fun_register) !! t)
                         → t ∈ TRIGGERS).
  { assert (H0 : invariant (boot o)
                 ∧ ∀ t, is_Some ((boot o).(proc).(observer).(_fun_register) !! t)
                        → t ∈ TRIGGERS).
    { split; [apply invariant_boot; assumption|].
      intros t. cbn. rewrite Hreg. apply empty_register_keys. }
    clear Hreg Hwf0 Hcur0 Hinit. revert Hex H0. generalize (boot o).
    induction acts as [|a acts IH]; intros s0 Hex [Hinv Hkeys]; cbn in Hex.
    - injection Hex as <-. split; assumption.
    - destruct (exec a s0) as [s1|] eqn:Hstep; [|discriminate]. cbn in Hex.
      apply (IH s1 Hex). split; [eapply invariant_exec; eauto|].
      intros t Ht. destruct (exec_registry a s0 s1 Hinv Hstep) as [Heq|(t' & funs & Ht' & Heq)];
        rewrite Heq in Ht.
      + apply Hkeys, Ht.
      + apply lookup_insert_is_Some in Ht as [<-|[_ Ht]]; [exact Ht'|apply Hkeys, Ht]. }
  destruct Hboth as [Hinv Hkeys].
  pose proof (inv_register s Hinv) as Hwf.
  split; [|split; [|split]].
  - intros t. split; [apply Hkeys | apply Hwf].
  - intros t loc Ht. rewrite trigger_dispatch by (apply Hwf, Ht). reflexivity.
  - intros m. apply (update_preserves _ m Hwf).
  - intros fn t. split.
    + intros Hok. destruct (decide (t ∈ TRIGGERS)) as [|Hnot]; [assumption|].
      rewrite (proj1 (unknown_trigger_eq _ fn t Hnot)) in Hok. discriminate.
    + intros Hin. destruct (Hwf t Hin) as [funs Hf].
      rewrite (register_eq _ fn t funs Hin Hf). reflexivity.
Qed.

Lemma registry_keeps_witness :
  value (update sample_match
           (after [call_register 3%nat ON_LOST; call_run 1%Q; wait_timeout 0;
                   call_unregister 3%nat ON_LOST; loop_update 0 sample_match]
              (boot (mkObserver sample_rgb None
                       (inject_Z (Z.of_nat (rows sample_rgb * cols sample_rgb)))
                       (1 # 2) None None empty_register None))).(proc).(observer))
  = Ok tt.
Proof.
  refine (proj1 (proj2 (proj2 (registry_keeps_the_three_kinds sample_rgb (1 # 2) None _
            [call_register 3%nat ON_LOST; call_run 1%Q; wait_timeout 0;
             call_unregister 3%nat ON_LOST; loop_update 0 sample_match] _ _ _)))
            sample_match).
  - reflexivity.
  - vm_compute. reflexivity.
Defined.

(** ** The worker *)

(** X10. While the caller is not inside [stop]: no wait of a worker
    returns [True], so a worker never leaves its loop by itself; the
    worker of a run handle is in its loop, its event is not set, and it
    can always move on (its wait can time out, or its update can run);
    and without a run handle no step of a worker is possible: an
    Observer that is not running never ticks by itself. *)
Theorem worker_stays_in_its_loop o acts s :
  wf_register o.(_fun_register) →
  o.(_current_thread) = None →
  execs acts (boot o) = Some s →
  s.(caller) = Idle →
  (∀ t, exec (wait_signalled t) s = None)
  ∧ (∀ t e, s.(proc).(observer).(_current_thread) = Some (t, e) →
       live s.(proc) t
       ∧ s.(proc).(events) !! e = Some false
       ∧ (is_Some (exec (wait_timeout t) s)
          ∨ ∀ m, is_Some (exec (loop_update t m) s)))
  ∧ (s.(proc).(observer).(_current_thread) = None →
       ∀ a, is_worker_action a = true → exec a s = None).
Proof.
  intros Hwf Hcur0 Hex Hc.
  assert (Hinv : invariant s).
  { eapply invariant_execs; [apply invariant_boot|]; eassumption. }
  split; [|split].
  - intros t. unfold exec, async_run_wait.
    destruct (threads (proc s) !! t) as [th|] eqn:Ht; [|reflexivity]. cbn.
    destruct (events (proc s) !! t_stop_event th) as [flag|] eqn:He; [|reflexivity].
    cbn. case_decide as Hpc; [|reflexivity]. case_decide as Hflag; [|reflexivity].
    exfalso. subst flag.
    assert (Hne : t_pc th ≠ Exited) by congruence.
    pose proof (inv_live s Hinv t th Ht Hne) as Hcur.
    destruct (inv_idle s Hinv t _ Hc Hcur) as [_ Hfalse]. congruence.
  - intros t e Hcur. destruct (inv_idle s Hinv t e Hc Hcur) as [Hlive Hflag].
    split; [exact Hlive|]. split; [exact Hflag|].
    destruct Hlive as (th & Ht & Hne).
    pose proof (inv_live s Hinv t th Ht Hne) as Hcur'.
    rewrite Hcur in Hcur'. injection Hcur' as He.
    pose proof (inv_started s Hinv t th Ht) as Hstarted.
    pose proof (inv_register s Hinv) as Hreg.
    destruct s as [p c]. cbn [proc caller] in *. subst c.
    destruct (t_pc th) eqn:Hpc; [done| | |done].
    + left. unfold exec, async_run_wait. cbn [caller proc]. rewrite Ht. cbn.
      rewrite <- He, Hflag. cbn. rewrite decide_True by exact Hpc.
      rewrite decide_True by reflexivity. cbn. eauto.
    + right. intros m. rewrite (exec_loop_update p Idle t th m Hreg Ht Hpc). eauto.
  - intros Hcur a Hw. destruct (exec a s) as [s'|] eqn:Hexa; [|reflexivity].
    destruct (worker_action_live a s s' Hw Hexa) as [t Ht].
    destruct (no_handle_no_worker s t Hinv Hcur Ht).
Qed.

Lemma worker_stays_witness :
  exec (wait_signalled 0) (after [call_run 1%Q; wait_timeout 0] sample_machine) = None.
Proof.
  refine (proj1 (worker_stays_in_its_loop (sample_observer 6 (1 # 2) None)
                   [call_run 1%Q; wait_timeout 0]
                   (after [call_run 1%Q; wait_timeout 0] sample_machine) _ _ _ _) 0%nat).
  - apply wf_sample.
  - reflexivity.
  - reflexivity.
  - reflexivity.
Defined.

(** When a step of a worker is possible. *)
Lemma wait_enabled (signalled : bool) t p c :
  is_Some (exec (if signalled then wait_signalled t else wait_timeout t)
             (mkMachine p c))
  ↔ ∃ th, p.(threads) !! t = Some th ∧ th.(t_pc) = Waiting
          ∧ p.(events) !! th.(t_stop_event) = Some signalled.
Proof.
  assert (H : is_Some (async_run_wait signalled t p)
              ↔ ∃ th, p.(threads) !! t = Some th ∧ th.(t_pc) = Waiting
                      ∧ p.(events) !! th.(t_stop_event) = Some signalled).
  { unfold async_run_wait. destruct (threads p !! t) as [th|] eqn:Ht; cbn.
    - destruct (events p !! t_stop_event th) as [flag|] eqn:He; cbn.
      + case_decide as Hpc.
        * case_decide as Hflag.
          -- subst flag. split; intros _; [|eexists; reflexivity].
             exists th. split; [reflexivity|]. split; [exact Hpc|exact He].
          -- split; [intros [? [=]] | intros (? & [= <-] & _ & ?); congruence].
        * split; [intros [? [=]] | intros (? & [= <-] & ? & _); done].
      + split; [intros [? [=]] | intros (? & [= <-] & _ & ?); congruence].
    - split; [intros [? [=]] | intros (? & [=] & _)]. }
  rewrite <- H. destruct signalled; unfold exec; cbn [caller proc];
    apply fmap_is_Some.
Qed.

Lemma update_enabled t m p c :
  is_Some (exec (loop_update t m) (mkMachine p c))
  ↔ ∃ th, p.(threads) !! t = Some th ∧ th.(t_pc) = Ticking.
Proof.
  unfold exec. cbn [caller proc]. rewrite fmap_is_Some. unfold async_run_update.
  destruct (threads p !! t) as [th|] eqn:Ht; cbn.
  - case_decide as Hpc.
    + split; intros _; [|eexists; reflexivity].
      exists th. split; [reflexivity|exact Hpc].
    + split; [intros [? [=]] | intros (? & [= <-] & ?); done].
  - split; [intros [? [=]] | intros (? & [=] & _)].
Qed.

(** X11. Right after a call of [run] that found no run handle, the one
    step open to a worker is the timeout of the wait of the new worker:
    no update runs before one period has passed, and no older worker
    does anything. *)
Theorem run_starts_with_a_wait o acts s period s' :
  wf_register o.(_fun_register) →
  o.(_current_thread) = None →
  execs acts (boot o) = Some s →
  s.(proc).(observer).(_current_thread) = None →
  exec (call_run period) s = Some s' →
  ∀ a, is_worker_action a = true →
       is_Some (exec a s') ↔ a = wait_timeout (length s.(proc).(threads)).
Proof.
  intros Hwf Hcur0 Hex Hcur Hrun a Hw.
  assert (Hinv : invariant s).
  { eapply invariant_execs; [apply invariant_boot|]; eassumption. }
  assert (Hdead : ∀ t th, threads (proc s) !! t = Some th → t_pc th = Exited).
  { intros t th Ht. destruct (decide (t_pc th = Exited)) as [|Hne]; [done|].
    destruct (no_handle_no_worker s t Hinv Hcur). exists th. done. }
  destruct s as [p c]. unfold exec in Hrun. cbn [caller proc] in *.
  destruct c; [|discriminate]. rewrite (run_idle p period Hcur) in Hrun.
  cbn [final] in Hrun. injection Hrun as <-.
  set (p1 := mkProcess _ _ _).
  assert (Hlook : ∀ t th, threads p1 !! t = Some th → t_pc th ≠ Exited →
            t = length (threads p)
            ∧ th = mkThread (length (events p)) period Waiting).
  { intros t th Ht Hne. apply lookup_snoc_Some in Ht as [[Hlt Ht]|[-> <-]].
    - destruct Hne. eapply Hdead, Ht.
    - split; reflexivity. }
  assert (Hnew : threads p1 !! length (threads p)
                 = Some (mkThread (length (events p)) period Waiting)).
  { apply lookup_snoc_Some. right. split; reflexivity. }
  assert (Hflag : events p1 !! length (events p) = Some false).
  { apply lookup_snoc_Some. right. split; reflexivity. }
  destruct a as [| | | | | |t|t|t m]; try discriminate Hw.
  - rewrite (wait_enabled false t p1 Idle). split.
    + intros (th & Ht & Hpc & _).
      destruct (Hlook t th Ht) as [-> _]; [congruence | reflexivity].
    + intros [= ->]. eexists. split; [exact Hnew|]. split; [reflexivity|exact Hflag].
  - rewrite (wait_enabled true t p1 Idle). split; [|discriminate].
    intros (th & Ht & Hpc & He). exfalso.
    destruct (Hlook t th Ht) as [-> ->]; [congruence|].
    cbn [t_stop_event] in He. rewrite Hflag in He. discriminate He.
  - rewrite (update_enabled t m p1 Idle). split; [|discriminate].
    intros (th & Ht & Hpc). exfalso.
    destruct (Hlook t th Ht) as [-> ->]; [congruence|]. discriminate Hpc.
Qed.

Lemma run_starts_witness :
  is_Some (exec (wait_timeout 0) (after [call_run 1%Q] sample_machine)).
Proof.
  refine (proj2 (run_starts_with_a_wait (sample_observer 6 (1 # 2) None) []
                   sample_machine 1%Q (after [call_run 1%Q] sample_machine)
                   _ _ _ _ _ (wait_timeout 0) _) _).
  - apply wf_sample.
  - reflexivity.
  - reflexivity.
  - reflexivity.
  - reflexivity.
  - reflexivity.
  - reflexivity.
Defined.

(** ** The worker and direct ticks *)

(** A tick does not look at the run handle. *)
Lemma update_set_current_thread h o m :
  wf_register o.(_fun_register) →
  update m (set_current_thread h o)
  = mkOutcome (trace (update m o)) (set_current_thread h (final (update m o)))
      (value (update m o)).
Proof.
  intros Hwf.
  assert (Hc : ∃ tr loc sim,
             check m o = mkOutcome tr o (Ok (loc, sim))
             ∧ check m (set_current_thread h o)
               = mkOutcome tr (set_current_thread h o) (Ok (loc, sim))).
  { destruct (Qeq_bool (_sq_alpha o) 0) eqn:Hz.
    - eexists _, _, _. split; apply check_degenerate; exact Hz.
    - eexists _, _, _. split; [apply check_regular; exact Hz|].
      rewrite check_regular by exact Hz. reflexivity. }
  destruct Hc as (tr & loc & sim & Hc1 & Hc2).
  rewrite (update_eq (set_current_thread h o) m tr loc sim Hwf Hc2).
  rewrite (update_eq o m tr loc sim Hwf Hc1).
  cbn [_fun_register _threshold _lastFound set_current_thread].
  destruct (Qle_bool (_threshold o) sim), (_lastFound o) as [last|];
    try destruct (decide (loc ≠ last)); reflexivity.
Qed.

Lemma ticks_set_current_thread h ms : ∀ o,
  wf_register o.(_fun_register) →
  ticks ms (set_current_thread h o)
  = mkOutcome (trace (ticks ms o)) (set_current_thread h (final (ticks ms o)))
      (value (ticks ms o)).
Proof.
  induction ms as [|m ms IH]; intros o Hwf; [reflexivity|].
  destruct (update_preserves o m Hwf) as (Hval & _ & Hreg).
  rewrite !ticks_cons. unfold bind.
  rewrite (update_set_current_thread h o m Hwf). cbn [value trace final].
  rewrite Hval. rewrite IH by (rewrite Hreg; exact Hwf). reflexivity.
Qed.

Lemma execs_app acts1 acts2 s :
  execs (acts1 ++ acts2) s = execs acts1 s ≫= execs acts2.
Proof.
  revert s. induction acts1 as [|a acts1 IH]; intros s; [reflexivity|].
  cbn [app execs]. destruct (exec a s) as [s1|]; [apply IH | reflexivity].
Qed.

Lemma running_set_pc self ths evs period flag pc pc' :
  set_pc (length ths) pc' (running self ths evs period flag pc)
  = running self ths evs period flag pc'.
Proof.
  unfold set_pc, running. cbn [observer threads events]. f_equal.
  rewrite <- (Nat.add_0_r (length ths)) at 1. rewrite alter_app_r. reflexivity.
Qed.

Lemma running_thread self ths evs period flag pc :
  (running self ths evs period flag pc).(threads) !! length ths
  = Some (mkThread (length evs) period pc)
  ∧ (running self ths evs period flag pc).(events) !! length evs = Some flag.
Proof.
  split; apply lookup_snoc_Some; right; split; reflexivity.
Qed.

Lemma exec_wait_timeout s c t th :
  s.(threads) !! t = Some th → th.(t_pc) = Waiting →
  s.(events) !! th.(t_stop_event) = Some false →
  exec (wait_timeout t) (mkMachine s c) = Some (mkMachine (set_pc t Ticking s) c).
Proof.
  intros Ht Hpc Hflag. unfold exec, async_run_wait. cbn [caller proc].
  rewrite Ht. cbn [mbind option_bind]. rewrite Hflag. cbn [mbind option_bind].
  rewrite decide_True by exact Hpc. rewrite decide_True by reflexivity.
  reflexivity.
Qed.

(** One turn of the loop of the worker is one [update]. *)
Lemma exec_round self ths evs period m c :
  wf_register self.(_fun_register) →
  execs [wait_timeout (length ths); loop_update (length ths) m]
    (mkMachine (running self ths evs period false Waiting) c)
  = Some (mkMachine (running (final (update m self)) ths evs period false Waiting) c).
Proof.
  intros Hwf.
  destruct (running_thread self ths evs period false Waiting) as [Ht He].
  destruct (running_thread self ths evs period false Ticking) as [Ht' _].
  cbn [execs].
  rewrite (exec_wait_timeout _ c _ _ Ht eq_refl He). cbn [mbind option_bind].
  rewrite running_set_pc.
  rewrite (exec_loop_update (running self ths evs period false Ticking) c _ _ m
             Hwf Ht' eq_refl).
  cbn [mbind option_bind].
  f_equal. f_equal. apply (running_set_pc (final (update m self))).
Qed.

Lemma exec_rounds ths evs period c ms : ∀ self,
  wf_register self.(_fun_register) →
  execs (rounds (length ths) ms)
    (mkMachine (running self ths evs period false Waiting) c)
  = Some (mkMachine (running (final (ticks ms self)) ths evs period false Waiting) c).
Proof.
  induction ms as [|m ms IH]; intros self Hwf; [reflexivity|].
  unfold rounds. cbn [mbind list_bind]. fold (rounds (length ths) ms).
  rewrite execs_app, (exec_round self ths evs period m c Hwf).
  cbn [mbind option_bind].
  destruct (update_preserves self m Hwf) as (Hval & _ & Hreg).
  rewrite IH by (rewrite Hreg; exact Hwf).
  rewrite ticks_cons. unfold bind. rewrite Hval. reflexivity.
Qed.

Lemma ticks_preserves ms : ∀ o,
  wf_register o.(_fun_register) →
  value (ticks ms o) = Ok tt
  ∧ (final (ticks ms o)).(_current_thread) = o.(_current_thread)
  ∧ (final (ticks ms o)).(_fun_register) = o.(_fun_register).
Proof.
  induction ms as [|m ms IH]; intros o Hwf; [done|].
  destruct (update_preserves o m Hwf) as (Hval & Hcur & Hreg).
  rewrite ticks_cons. unfold bind. rewrite Hval. cbn [value final].
  destruct (IH (final (update m o))) as (Hval' & Hcur' & Hreg');
    [rewrite Hreg; exact Hwf|].
  rewrite Hval', Hcur', Hreg', Hcur, Hreg. done.
Qed.

Lemma set_current_thread_clear h o :
  o.(_current_thread) = None →
  set_current_thread None (set_current_thread h o) = o.
Proof. destruct o. cbn. intros ->. reflexivity. Qed.

(** X12. What the background loop does is what direct ticks do.  From
    a state in which the Observer is not running and the caller is
    between two calls: [run], then one turn of the loop of the worker
    for each answer of the collaborators, then [stop] (the event is set,
    the wait of the worker returns [True], [join] returns) leave the
    Observer exactly as the same ticks called directly leave it, with no
    run handle, and leave the worker over, its event set. *)
Theorem background_ticks_are_updates s period ms :
  wf_register s.(proc).(observer).(_fun_register) →
  s.(caller) = Idle →
  s.(proc).(observer).(_current_thread) = None →
  let t := length s.(proc).(threads) in
  let e := length s.(proc).(events) in
  execs (call_run period :: rounds t ms ++ [call_stop; wait_signalled t; join_returns]) s
  = Some (mkMachine
            (mkProcess (final (ticks ms s.(proc).(observer)))
               (s.(proc).(threads) ++ [mkThread e period Exited])
               (s.(proc).(events) ++ [true]))
            Idle).
Proof.
  destruct s as [[self ths evs] c]. cbn [proc caller observer threads events].
  intros Hwf -> Hcur. cbv zeta.
  set (h := Some (length ths, length evs)).
  destruct (ticks_preserves ms self Hwf) as (_ & Hcur' & Hreg').
  cbn [execs]. unfold exec at 1. cbn [caller proc].
  rewrite (run_idle (mkProcess self ths evs) period Hcur).
  cbn [final observer threads events mbind option_bind]. fold h.
  change (mkProcess (set_current_thread h self)
            (ths ++ [mkThread (length evs) period Waiting]) (evs ++ [false]))
    with (running (set_current_thread h self) ths evs period false Waiting).
  rewrite execs_app,
    (exec_rounds ths evs period Idle ms (set_current_thread h self) Hwf).
  cbn [mbind option_bind]. rewrite (ticks_set_current_thread h ms self Hwf).
  cbn [final]. set (self' := final (ticks ms self)) in *.
  cbn [execs].
  rewrite (exec_call_stop_running
             (mkMachine (running (set_current_thread h self') ths evs period false Waiting)
                Idle)
             (length ths) (length evs) eq_refl eq_refl).
  cbn [mbind option_bind proc observer threads events running].
  assert (Hset : <[length evs := true]> (evs ++ [false]) = evs ++ [true]).
  { rewrite <- (Nat.add_0_r (length evs)). rewrite insert_app_r. reflexivity. }
  rewrite Hset.
  change (mkProcess (set_current_thread h self')
            (ths ++ [mkThread (length evs) period Waiting]) (evs ++ [true]))
    with (running (set_current_thread h self') ths evs period true Waiting).
  destruct (running_thread (set_current_thread h self') ths evs period true Waiting)
    as [Ht He].
  rewrite (exec_wait_signalled _ _ _ _ Ht eq_refl He).
  cbn [mbind option_bind]. rewrite running_set_pc.
  destruct (running_thread (set_current_thread h self') ths evs period true Exited)
    as [Ht' _].
  unfold exec. cbn [caller proc]. rewrite Ht'.
  cbn [mbind option_bind t_pc]. rewrite decide_True by reflexivity.
  rewrite stop_resume_eq. cbn [final]. unfold running, set_observer.
  cbn [observer threads events].
  rewrite (set_current_thread_clear h self') by (rewrite Hcur'; exact Hcur).
  reflexivity.
Qed.

Lemma background_ticks_witness :
  execs (call_run 1%Q
           :: rounds 0 [sample_match; sample_match]
              ++ [call_stop; wait_signalled 0; join_returns]) sample_machine
  = Some (mkMachine
            (mkProcess
               (final (ticks [sample_match; sample_match] (sample_observer 6 (1 # 2) None)))
               ([] ++ [mkThread 0 1%Q Exited]) ([] ++ [true]))
            Idle).
Proof.
  refine (background_ticks_are_updates sample_machine 1%Q [sample_match; sample_match]
            _ _ _).
  - apply wf_sample.
  - reflexivity.
  - reflexivity.
Defined.

(** ** The collaborators *)

Lemma captures_app tr1 tr2 : captures (tr1 ++ tr2) = captures tr1 ++ captures tr2.
Proof. apply omap_app. Qed.

Lemma matches_app tr1 tr2 : matches (tr1 ++ tr2) = (matches tr1 + matches tr2)%nat.
Proof. unfold matches. rewrite List.filter_app, length_app. reflexivity. Qed.

Lemma dispatch_no_capture reg t loc :
  captures (dispatch reg t loc) = [] ∧ matches (dispatch reg t loc) = 0%nat.
Proof.
  unfold dispatch. generalize (default [] (reg !! t)). intros fs.
  split; cbn; induction fs as [|f fs IH]; [reflexivity|exact IH|reflexivity|exact IH].
Qed.

(** One tick of an Observer whose weight is not zero grabs once, in
    the region of the Observer, and matches once. *)
Lemma update_captures o m :
  wf_register o.(_fun_register) →
  Qeq_bool o.(_sq_alpha) 0 = false →
  captures (trace (update m o)) = [o.(_bbox)]
  ∧ matches (trace (update m o)) = 1%nat.
Proof.
  intros Hwf Hz. rewrite (update_eq o m _ _ _ Hwf (check_regular o m Hz)). cbn zeta.
  destruct (Qle_bool _ _), (_lastFound o) as [last|];
    try destruct (decide (_ ≠ last));
    cbn [trace]; rewrite ?captures_app, ?matches_app,
      ?(proj1 (dispatch_no_capture _ _ _)), ?(proj2 (dispatch_no_capture _ _ _));
    split; reflexivity.
Qed.

(** X13. A run of ticks of an Observer whose weight is not zero grabs
    the screen exactly once for each tick, each time in the region the
    Observer was built with (the whole monitor when it has none), and
    matches the template exactly once for each tick; listeners never
    change that. *)
Theorem ticks_capture_once_each ms : ∀ o,
  wf_register o.(_fun_register) →
  Qeq_bool o.(_sq_alpha) 0 = false →
  captures (trace (ticks ms o)) = replicate (length ms) o.(_bbox)
  ∧ matches (trace (ticks ms o)) = length ms.
Proof.
  induction ms as [|m ms IH]; intros o Hwf Hz; [split; reflexivity|].
  destruct (update_captures o m Hwf Hz) as [Hcap Hmat].
  destruct (update_replay o m Hwf) as (tr & next & Hup & _).
  rewrite Hup in Hcap, Hmat. cbn [trace] in Hcap, Hmat.
  rewrite ticks_cons, (bind_ok _ _ _ _ _ _ Hup). cbn [trace].
  destruct (IH (set_lastFound next o) Hwf Hz) as [IHc IHm].
  rewrite captures_app, matches_app, Hcap, Hmat, IHc, IHm.
  split; reflexivity.
Qed.

Lemma ticks_capture_witness :
  captures (trace (ticks [sample_match; sample_match; sample_match]
                     (sample_observer 6 (1 # 2) None)))
  = replicate 3 None.
Proof.
  refine (proj1 (ticks_capture_once_each [sample_match; sample_match; sample_match]
                   (sample_observer 6 (1 # 2) None) _ _)).
  - apply wf_sample.
  - reflexivity.
Defined.
